(** * pa-permission-denied-simulator: traversal and permission mutation

    A shallow embedding of [src/main.py]: [apply_permission_change],
    [process_path] and [main], over a model of the POSIX calls they make
    ([os.chmod], [os.walk], [os.listdir], [pathlib.Path.exists/is_file/is_dir])
    and of the built-in [int(s, 8)].

    The program never creates, removes or renames an entry, so the directory
    structure is a fixed part of the environment and the mode bits are the
    state: a finite map from absolute paths to modes.

    What the model covers:
    - regular files and directories (no symbolic links, no special files);
    - permission strings and names made of ASCII characters;
    - Linux permission checks: search permission on every directory of a
      path, read permission to list a directory, ownership (or privilege)
      to change a mode; for each entry the class (owner, group, other)
      that applies to the invoking user is given, and a user who owns an
      entry is taken to belong to its group (chmod then keeps the set-gid
      bit);
    - argument parsing, logging set-up and console panels are left out;
      every record handed to the logger is kept in the trace, whatever
      the log level. *)

From Stdlib Require Import ZArith Ascii String.
From stdpp Require Import gmap strings list.

Open Scope string_scope.
Open Scope list_scope.
Open Scope Z_scope.

(** ** Paths and the directory structure *)

(** An absolute, resolved path is the list of its components below [/]
    ([main] resolves its argument before anything else). *)
Abbreviation path := (list string).

(** [str(path)]: the components joined with [/] after the leading [/]. *)
Fixpoint join_components (p : path) : string :=
  match p with
  | [] => ""
  | [c] => c
  | c :: p' => c +:+ "/" +:+ join_components p'
  end.

Definition path_str (p : path) : string := "/" +:+ join_components p.

(** Which of an entry's three permission classes applies to the invoking
    user: it owns the entry, or is in its group, or neither.  Only regular
    files and directories are modelled (no symbolic links). *)
Inductive cls := Owner | Group | Other.

#[warnings="-register-all"]
Inductive node :=
| File (who : cls)
| Dir (who : cls) (entries : list (string * node)).

Definition who_of (n : node) : cls :=
  match n with File w => w | Dir w _ => w end.

Definition is_owner (c : cls) : bool :=
  match c with Owner => true | _ => false end.

Definition is_dir_node (n : node) : bool :=
  match n with Dir _ _ => true | File _ => false end.

Fixpoint lookup_entry (name : string) (es : list (string * node)) : option node :=
  match es with
  | [] => None
  | (k, c) :: es' => if bool_decide (k = name) then Some c else lookup_entry name es'
  end.

(** Structure-only lookup (no permission check). *)
Fixpoint find_node (n : node) (p : path) : option node :=
  match p with
  | [] => Some n
  | name :: p' =>
      match n with
      | File _ => None
      | Dir _ es =>
          match lookup_entry name es with
          | Some c => find_node c p'
          | None => None
          end
      end
  end.

(** Names are unique inside a directory. *)
Fixpoint wf_node (n : node) : bool :=
  match n with
  | File _ => true
  | Dir _ es =>
      bool_decide (NoDup (fst <$> es)) && forallb (fun e => wf_node (snd e)) es
  end.

(** ** Mode bits: the mutable state *)

Abbreviation store := (gmap (list string) Z).

Definition mode_of (s : store) (p : path) : Z := default 0 (s !! p).

Inductive access := R | W | X.

Definition perm_bit (c : cls) (a : access) : Z :=
  match c with Owner => 6 | Group => 3 | Other => 0 end
  + match a with R => 2 | W => 1 | X => 0 end.

(** ** The platform the tool runs on *)

Record env := Env {
  os_posix : bool;          (* os.name == 'posix' *)
  euid_root : bool;         (* the user bypasses permission and ownership checks *)
  pathlib_reraises : bool;  (* Path.exists/is_file/is_dir re-raise EACCES
                               (CPython up to 3.12) instead of answering False *)
  tree : node;              (* the directory structure below "/" *)
  from_lines : string -> option (string -> bool)
                            (* PathSpec.from_lines(GitWildMatchPattern,
                               text.splitlines()) as match_file on str(path);
                               None when compiling the patterns raises *)
}.

Inductive errno := ENOENT | ENOTDIR | EACCES | EPERM.

Inductive exn :=
| OSError (e : errno)
| ValueError
| OverflowError.

(** What the run leaves behind: system calls that touch modes, and the
    records handed to the logger (whatever the log level). *)
Inductive event :=
| SysChmod (p : path) (mode : Z)
| LogSkipping (p : path)
| LogChanged (p : path) (permissions : string)
| LogInvalid (permissions : string)
| LogRemoved (p : path)
| LogUnsupported (p : path)
| LogFailed (p : path) (e : errno)
| LogMissing (p : path)
| LogBadPattern (text : string).

(** ** A state, trace and exception monad *)

Inductive outcome (A : Type) :=
| Ret (a : A)
| Raise (e : exn).
Arguments Ret {A} a.
Arguments Raise {A} e.

Record run (A : Type) := Run {
  res : outcome A;
  fs_after : store;
  trace : list event
}.
Arguments Run {A} _ _ _.
Arguments res {A} _.
Arguments fs_after {A} _.
Arguments trace {A} _.

Definition M (A : Type) : Type := store -> run A.

#[global] Instance M_ret : MRet M := fun A a s => Run (Ret a) s [].

#[global] Instance M_bind : MBind M := fun A B k c s =>
  let r := c s in
  match res r with
  | Ret a =>
      let r' := k a (fs_after r) in
      Run (res r') (fs_after r') (trace r ++ trace r')
  | Raise e => Run (Raise e) (fs_after r) (trace r)
  end.

Definition raise {A} (e : exn) : M A := fun s => Run (Raise e) s [].

Definition emit (e : event) : M unit := fun s => Run (Ret tt) s [e].

(** [try: c except <those e with h e = Some k>: k] *)
Definition try_except {A} (c : M A) (h : exn -> option (M A)) : M A := fun s =>
  let r := c s in
  match res r with
  | Ret a => r
  | Raise e =>
      match h e with
      | Some k =>
          let r' := k (fs_after r) in
          Run (res r') (fs_after r') (trace r ++ trace r')
      | None => r
      end
  end.

(** [for x in l: f x] *)
Definition for_each {A} (f : A -> M unit) : list A -> M unit :=
  fix go (l : list A) : M unit :=
    match l with
    | [] => mret tt
    | x :: l' => f x;; go l'
    end.

(** ** The built-in [int(s, 8)] on ASCII strings

    Follows CPython's [PyLong_FromString]: optional blanks, an optional sign,
    an optional [0o] prefix (then at most one underscore), octal digits with
    single underscores between them, optional blanks, end of string. *)

Definition py_isspace (c : ascii) : bool :=
  let n := Z.of_N (N_of_ascii c) in
  (n =? 32) || ((9 <=? n) && (n <=? 13)).

Definition octal_digit (c : ascii) : option Z :=
  let n := Z.of_N (N_of_ascii c) in
  if (48 <=? n) && (n <=? 55) then Some (n - 48) else None.

Fixpoint skip_spaces (s : list ascii) : list ascii :=
  match s with
  | c :: s' => if py_isspace c then skip_spaces s' else s
  | [] => []
  end.

Definition take_sign (s : list ascii) : Z * list ascii :=
  match s with
  | c :: s' =>
      if Ascii.eqb c "+" then (1, s')
      else if Ascii.eqb c "-" then (-1, s')
      else (1, s)
  | [] => (1, [])
  end.

Definition take_prefix (s : list ascii) : list ascii :=
  match s with
  | z :: o :: s' =>
      if Ascii.eqb z "0" && (Ascii.eqb o "o" || Ascii.eqb o "O") then
        match s' with
        | u :: s'' => if Ascii.eqb u "_" then s'' else s'
        | [] => s'
        end
      else s
  | _ => s
  end.

(** Scans digits and underscores; fails on a doubled or trailing
    underscore.  Returns the value, the number of digits and the rest. *)
Fixpoint scan_digits (prev_us : bool) (ndigits : nat) (acc : Z) (s : list ascii)
  : option (Z * nat * list ascii) :=
  match s with
  | c :: s' =>
      if Ascii.eqb c "_" then
        if prev_us then None else scan_digits true ndigits acc s'
      else
        match octal_digit c with
        | Some d => scan_digits false (S ndigits) (8 * acc + d) s'
        | None => if prev_us then None else Some (acc, ndigits, s)
        end
  | [] => if prev_us then None else Some (acc, ndigits, [])
  end.

Definition starts_with_underscore (s : list ascii) : bool :=
  match s with
  | c :: _ => Ascii.eqb c "_"
  | [] => false
  end.

(** [None] is [ValueError]. *)
Definition py_int8 (s : string) : option Z :=
  let '(sign, s1) := take_sign (skip_spaces (list_ascii_of_string s)) in
  let s2 := take_prefix s1 in
  if starts_with_underscore s2 then None
  else
    match scan_digits false 0 0 s2 with
    | Some (v, S _, rest) =>
        match skip_spaces rest with
        | [] => Some (sign * v)
        | _ => None
        end
    | _ => None
    end.


(** ** POSIX calls and pathlib queries *)

Section Program.

Variable E : env.

(** May the user use access [a] on the entry at [p], of class [c]? *)
Definition may (s : store) (p : path) (c : cls) (a : access) : bool :=
  euid_root E || Z.testbit (mode_of s p) (perm_bit c a).

(** Path resolution from the node [n] at [here]: every directory that is
    walked through must grant search permission. *)
Fixpoint resolve (s : store) (n : node) (here rest : path) : errno + node :=
  match rest with
  | [] => inr n
  | name :: rest' =>
      match n with
      | File _ => inl ENOTDIR
      | Dir w es =>
          if may s here w X then
            match lookup_entry name es with
            | Some c => resolve s c (here ++ [name]) rest'
            | None => inl ENOENT
            end
          else inl EACCES
      end
  end.

Definition stat (s : store) (p : path) : errno + node :=
  resolve s (tree E) [] p.

(** Opening a directory for listing needs read permission on it. *)
Definition readdir (s : store) (p : path) : errno + list (string * node) :=
  match stat s p with
  | inl e => inl e
  | inr (File _) => inl ENOTDIR
  | inr (Dir w es) => if may s p w R then inr es else inl EACCES
  end.

Definition in_c_int (z : Z) : bool := (- 2 ^ 31 <=? z) && (z <? 2 ^ 31).

(** [os.chmod(p, mode)]: the argument must fit a C int; the call needs the
    path to resolve and the user to own the entry (or be privileged); the
    kernel keeps the twelve permission bits of [mode]. *)
Definition os_chmod (p : path) (mode : Z) : M unit := fun s =>
  if in_c_int mode then
    match stat s p with
    | inl e => Run (Raise (OSError e)) s [SysChmod p mode]
    | inr n =>
        if euid_root E || is_owner (who_of n)
        then Run (Ret tt) (<[p := Z.land mode 4095]> s) [SysChmod p mode]
        else Run (Raise (OSError EPERM)) s [SysChmod p mode]
    end
  else Run (Raise OverflowError) s [].

(** [os.listdir(p)] *)
Definition os_listdir (p : path) : M (list string) := fun s =>
  match readdir s p with
  | inl e => Run (Raise (OSError e)) s []
  | inr es => Run (Ret (fst <$> es)) s []
  end.

(** pathlib's [stat] behind [exists], [is_file] and [is_dir]: [ENOENT] and
    [ENOTDIR] are swallowed, other errors are re-raised or swallowed
    depending on the pathlib version. *)
Definition path_stat (p : path) : M (option node) := fun s =>
  match stat s p with
  | inr n => Run (Ret (Some n)) s []
  | inl ENOENT | inl ENOTDIR => Run (Ret None) s []
  | inl e =>
      if pathlib_reraises E then Run (Raise (OSError e)) s []
      else Run (Ret None) s []
  end.

Definition path_exists (p : path) : M bool :=
  n ← path_stat p; mret (bool_decide (is_Some n)).

Definition path_is_file (p : path) : M bool :=
  n ← path_stat p;
  mret (match n with Some (File _) => true | _ => false end).

Definition path_is_dir (p : path) : M bool :=
  n ← path_stat p;
  mret (match n with Some (Dir _ _) => true | _ => false end).

Definition dir_names (es : list (string * node)) : list string :=
  fst <$> filter (fun e => is_dir_node (snd e) = true) es.

Definition file_names (es : list (string * node)) : list string :=
  fst <$> filter (fun e => is_dir_node (snd e) = false) es.

(** [for root, dirs, files in os.walk(top): body root dirs files], top-down
    with [onerror=None]: a directory that cannot be listed is passed over
    silently.  The generator is lazy: the body for a directory runs before
    the walk lists its subdirectories.  [n] is the structure found at
    [top]; since the structure never changes the recursion follows it and
    the listing of the moment only decides whether the directory can be
    read. *)
Fixpoint os_walk (body : path -> list string -> list string -> M unit)
    (top : path) (n : node) : M unit :=
  match n with
  | File _ => mret tt
  | Dir _ es => fun s =>
      match readdir s top with
      | inl _ => Run (Ret tt) s []
      | inr _ =>
          (body top (dir_names es) (file_names es);;
           for_each (fun e => if is_dir_node (snd e)
                              then os_walk body (top ++ [fst e]) (snd e)
                              else mret tt) es) s
      end
  end.

Definition for_os_walk (top : path)
    (body : path -> list string -> list string -> M unit) : M unit :=
  match find_node (tree E) top with
  | Some n => os_walk body top n
  | None => mret tt
  end.

(** ** [apply_permission_change] *)

Definition truthy (permissions : option string) : bool :=
  match permissions with
  | Some s => negb (bool_decide (s = ""))
  | None => false
  end.

Definition excluded (exclude_spec : option (string -> bool)) (p : path) : bool :=
  match exclude_spec with
  | Some match_file => match_file (path_str p)
  | None => false
  end.

Definition int8 (s : string) : M Z :=
  match py_int8 s with
  | Some z => mret z
  | None => raise ValueError
  end.

Definition on_ValueError {A} (k : M A) (e : exn) : option (M A) :=
  match e with ValueError => Some k | _ => None end.

Definition on_OSError {A} (k : errno -> M A) (e : exn) : option (M A) :=
  match e with OSError err => Some (k err) | _ => None end.

(** Returns [None], or [Some 1] after an invalid permission string. *)
Definition apply_permission_change (target_path : path)
    (permissions : option string) (exclude_spec : option (string -> bool))
  : M (option Z) :=
  try_except
    (if excluded exclude_spec target_path then
       emit (LogSkipping target_path);; mret None
     else if truthy permissions then
       let permissions := default "" permissions in
       try_except
         (mode ← int8 permissions;
          os_chmod target_path mode;;
          emit (LogChanged target_path permissions);;
          mret None)
         (on_ValueError (emit (LogInvalid permissions);; mret (Some 1)))
     else if os_posix E then
       os_chmod target_path 0;;
       emit (LogRemoved target_path);;
       mret None
     else
       emit (LogUnsupported target_path);; mret None)
    (on_OSError (fun err => emit (LogFailed target_path err);; mret None)).

(** ** [process_path] *)

Definition walk_body (permissions : option string)
    (exclude_spec : option (string -> bool))
    (root : path) (dirs files : list string) : M unit :=
  for_each (fun file =>
    apply_permission_change (root ++ [file]) permissions exclude_spec;;
    mret tt) files;;
  names ← os_listdir root;
  for_each (fun dir_name =>
    let dir_path := root ++ [dir_name] in
    d ← path_is_dir dir_path;
    if d : bool then apply_permission_change dir_path permissions exclude_spec;; mret tt
    else mret tt) names.

Definition process_path (target_path : path) (permissions : option string)
    (recursive : bool) (exclude_spec : option (string -> bool)) : M Z :=
  ex ← path_exists target_path;
  if negb (ex : bool) then
    emit (LogMissing target_path);; mret 1
  else
    f ← path_is_file target_path;
    (if f : bool then
       apply_permission_change target_path permissions exclude_spec;; mret tt
     else
       d ← path_is_dir target_path;
       if d : bool then
         apply_permission_change target_path permissions exclude_spec;;
         if recursive then
           for_os_walk target_path (walk_body permissions exclude_spec)
         else mret tt
       else mret tt);;
    mret 0.

(** ** [main] *)

Record args := Args {
  target_path : path;            (* after [resolve()] *)
  permissions : option string;   (* -p *)
  exclude : option string;       (* -e *)
  recursive : bool               (* -r *)
}.

Definition main (a : args) : M Z :=
  let compiled :=
    if truthy (exclude a) then
      match from_lines E (default "" (exclude a)) with
      | Some m => Some (Some m)
      | None => None
      end
    else Some None in
  match compiled with
  | None => emit (LogBadPattern (default "" (exclude a)));; mret 1
  | Some exclude_spec =>
      ex ← path_exists (target_path a);
      if negb (ex : bool) then mret 1
      else if truthy (permissions a)
              && negb (bool_decide (String.length (default "" (permissions a)) = 3%nat
                                    \/ String.length (default "" (permissions a)) = 4%nat))
      then mret 1
      else process_path (target_path a) (permissions a) (recursive a) exclude_spec
  end.

End Program.

(** The status the process exits with: [sys.exit(main())], or 1 after an
    uncaught exception. *)
Definition exit_status (o : outcome Z) : Z :=
  match o with
  | Ret z => z
  | Raise _ => 1
  end.

(** * Vocabulary of the specification *)

(** ** Directives *)





(** The mode a directive asks [os.chmod] for: the parsed string, or 0 for
    the absent (or empty) string on POSIX; none when the string does not
    parse or the platform has no mode bits to clear. *)
Definition directive_mode (E : env) (permissions : option string) : option Z :=
  if truthy permissions then py_int8 (default "" permissions)
  else if os_posix E then Some 0 else None.

(** The mode asked for, if any, fits a C int. *)
Definition directive_fits (E : env) (permissions : option string) : Prop :=
  forall m, directive_mode E permissions = Some m -> in_c_int m = true.

(** The directive is absent, or a string that [int(s, 8)] accepts with a
    value that fits a C int. *)
Definition well_formed_directive (permissions : option string) : Prop :=
  permissions = None \/
  exists p m, permissions = Some p /\ py_int8 p = Some m /\ in_c_int m = true.


(** After its own mode has become [m], a directory of class [wd] can still
    be listed and searched by the user. *)
Definition stays_open (E : env) (wd : cls) (m : Z) : bool :=
  euid_root E
  || (Z.testbit m (perm_bit wd R) && Z.testbit m (perm_bit wd X)).

(** ** One entry, in closed form *)

Definition applied_record (q : path) (permissions : option string) : event :=
  if truthy permissions then LogChanged q (default "" permissions)
  else LogRemoved q.

Definition entry_outcome (E : env) (q : path) (permissions : option string)
    (exclude_spec : option (string -> bool)) (s : store) : run (option Z) :=
  if excluded exclude_spec q then Run (Ret None) s [LogSkipping q]
  else
    match directive_mode E permissions with
    | None =>
        if truthy permissions
        then Run (Ret (Some 1)) s [LogInvalid (default "" permissions)]
        else Run (Ret None) s [LogUnsupported q]
    | Some m =>
        if in_c_int m then
          match stat E s q with
          | inl e => Run (Ret None) s [SysChmod q m; LogFailed q e]
          | inr n =>
              if euid_root E || is_owner (who_of n)
              then Run (Ret None) (<[q := Z.land m 4095]> s)
                       [SysChmod q m; applied_record q permissions]
              else Run (Ret None) s [SysChmod q m; LogFailed q EPERM]
          end
        else Run (Raise OverflowError) s []
    end.

(** ** Traces *)

(** The paths whose [SysChmod] a trace records, in order. *)
Fixpoint chmod_targets (t : list event) : list path :=
  match t with
  | [] => []
  | SysChmod p _ :: t' => p :: chmod_targets t'
  | _ :: t' => chmod_targets t'
  end.

(** How many times a trace calls chmod on [q]. *)
Definition attempts (q : path) (t : list event) : nat :=
  length (filter (fun x => x = q) (chmod_targets t)).

Definition failed_entry (t : list event) : Prop :=
  exists p e, LogFailed p e ∈ t.

(** The aggregate result as the specification words it: 0 only without
    failed entries, non-zero after a failed entry. *)
Definition result_reflects_failures (r : run Z) : Prop :=
  (res r = Ret 0 -> ~ failed_entry (trace r)) /\
  (failed_entry (trace r) -> exists z, res r = Ret z /\ z <> 0).

(** Both the directory and its child have new permission bits. *)
Definition both_changed (before after : store) (dir child : path) : Prop :=
  after !! dir <> before !! dir /\ after !! child <> before !! child.

(** ** Footprints *)

(** [q] is a proper ancestor of [p]. *)
Definition strictly_above (p q : path) : Prop := q `prefix_of` p /\ q <> p.

(** [q] lies properly below [p]. *)
Definition strictly_below (p q : path) : Prop := p `prefix_of` q /\ q <> p.

Definition agree_on (P : path -> Prop) (s s' : store) : Prop :=
  forall q, P q -> s !! q = s' !! q.

(** The one entry a call on [q] may change. *)
Definition touched (q x : path) : Prop := x = q.

(** The entries of the directory [top]. *)
Definition touched_child (top q : path) : Prop :=
  exists name, q = top ++ [name].

(** The structure has a directory at [q]. *)
Definition is_dir_at (E : env) (q : path) : Prop :=
  exists w es, find_node (tree E) q = Some (Dir w es).

Fixpoint pairwise_apart {A} (Wf : A -> path -> Prop) (l : list A) : Prop :=
  match l with
  | [] => True
  | x :: l' => (forall y q, y ∈ l' -> Wf x q -> ~ Wf y q) /\ pairwise_apart Wf l'
  end.

(** A computation is local to the paths it reads ([Rd]) and those it may
    change ([Wr]): it changes nothing else, calls chmod on paths of [Wr]
    only and on none twice, and run again from a store that agrees with
    the first store on [Rd] and with the first result on [Wr] it takes the
    same course and changes nothing. *)
Record local {A} (Rd Wr : path -> Prop) (c : M A) : Prop := Local {
  local_frame : forall s, agree_on (fun q => ~ Wr q) s (fs_after (c s));
  local_targets : forall s,
    (forall q, q ∈ chmod_targets (trace (c s)) -> Wr q) /\
    NoDup (chmod_targets (trace (c s)));
  local_again : forall s s',
    agree_on Rd s s' -> agree_on Wr (fs_after (c s)) s' ->
    c s' = Run (res (c s)) s' (trace (c s))
}.

(** A computation that leaves the modes alone and never calls chmod. *)
Definition quiet {A} (c : M A) : Prop :=
  forall s, fs_after (c s) = s /\ chmod_targets (trace (c s)) = [].

(** ** The exclusion pattern [sub/**]

    pathspec compiles the gitignore pattern [sub/**] to the regular
    expression [^sub/.*$] and matches it against the normalised file name. *)

(** pathspec's [normalize_file] on a POSIX path string: a leading [/] or
    [./] is dropped. *)
Definition normalize_file (f : string) : string :=
  match f with
  | String "/" f' => f'
  | String "." (String "/" f') => f'
  | _ => f
  end.

Fixpoint strip_prefix (pre s : string) : option string :=
  match pre with
  | EmptyString => Some s
  | String a pre' =>
      match s with
      | String b s' => if Ascii.eqb a b then strip_prefix pre' s' else None
      | EmptyString => None
      end
  end.

(** Python's [.*$]: no line feed, except possibly one that ends the text. *)
Fixpoint dot_star_end (s : string) : bool :=
  match s with
  | EmptyString => true
  | String c s' =>
      if Ascii.eqb c "010" then bool_decide (s' = "") else dot_star_end s'
  end.

Definition match_sub_glob (f : string) : bool :=
  match strip_prefix "sub/" (normalize_file f) with
  | Some rest => dot_star_end rest
  | None => false
  end.

(** The pattern compiler of the scenarios: it knows the one pattern text
    they use. *)
Definition sub_glob_from_lines (text : string) : option (string -> bool) :=
  if String.eqb text "sub/**" then Some match_sub_glob else None.

(** ** Scenarios *)

(** [/d] with [d/a.txt] and [d/sub/b.txt], all owned by the user; the modes
    are 0755 for [/], 0700 for [d], 0644 for [d/a.txt], 0750 for [d/sub]
    and 0600 for [d/sub/b.txt]. *)
Definition demo_tree : node :=
  Dir Owner
    [("d", Dir Owner [("a.txt", File Owner);
                      ("sub", Dir Owner [("b.txt", File Owner)])])].

Definition demo_store (d a sub b : Z) : store :=
  list_to_map [([], 493); (["d"], d); (["d"; "a.txt"], a);
               (["d"; "sub"], sub); (["d"; "sub"; "b.txt"], b)].

Definition demo_modes : store := demo_store 448 420 488 384.

(** A POSIX system and an ordinary (unprivileged) user. *)
Definition demo_env : env := Env true false true demo_tree sub_glob_from_lines.

(** The same system without POSIX mode bits in [os.name]. *)
Definition demo_env_nt : env := Env false false true demo_tree sub_glob_from_lines.

Definition demo_args_excluding : args :=
  Args ["d"] (Some "755") (Some "sub/**") true.

(** The scenario of the specification with the exclusion pattern [sub/**]:
    [d] and [d/a.txt] change, [d/sub] and [d/sub/b.txt] keep their bits and
    are reported as skipped. *)
Definition sub_tree_excluded (before : store) (r : run Z) : Prop :=
  fs_after r !! ["d"] = Some 493 /\
  fs_after r !! ["d"; "a.txt"] = Some 493 /\
  fs_after r !! ["d"; "sub"] = before !! ["d"; "sub"] /\
  fs_after r !! ["d"; "sub"; "b.txt"] = before !! ["d"; "sub"; "b.txt"] /\
  LogSkipping ["d"; "sub"] ∈ trace r /\
  LogSkipping ["d"; "sub"; "b.txt"] ∈ trace r.

(** [/d] holds [f], which belongs to somebody else. *)
Definition foreign_tree : node :=
  Dir Owner [("d", Dir Owner [("f", File Other)])].

Definition foreign_modes : store :=
  list_to_map [([], 493); (["d"], 493); (["d"; "f"], 420)].

Definition foreign_env : env := Env true false false foreign_tree sub_glob_from_lines.

(** [/d] holds the single file [f]; both belong to the user. *)
Definition single_tree : node :=
  Dir Owner [("d", Dir Owner [("f", File Owner)])].

Definition single_modes : store :=
  list_to_map [([], 493); (["d"], 493); (["d"; "f"], 420)].

Definition single_env : env := Env true false false single_tree sub_glob_from_lines.

(** * Further vocabulary *)

(** A relation between the store before, the store after and the trace
    holds of every run of a computation. *)
Definition stepwise {A : Type} (Rel : store -> store -> list event -> Prop)
    (c : M A) : Prop :=
  forall s, Rel s (fs_after (c s)) (trace (c s)).

(** Every entry keeps its bits or holds exactly [v]. *)
Definition keeps_or_sets (v : Z) (s s' : store) : Prop :=
  forall q, s' !! q = s !! q \/ s' !! q = Some v.


(** The record that tells how a chmod call on [p] ended. *)
Definition outcome_of (p : path) (r : event) : bool :=
  match r with
  | LogChanged q _ | LogRemoved q | LogFailed q _ => bool_decide (q = p)
  | _ => false
  end.

(** Every chmod call is followed at once by the record of its outcome for
    the same path, and no such record stands without its call. *)
Fixpoint accounted (t : list event) : bool :=
  match t with
  | [] => true
  | SysChmod p _ :: t1 =>
      match t1 with
      | r :: t2 => outcome_of p r && accounted t2
      | [] => false
      end
  | LogChanged _ _ :: _ | LogRemoved _ :: _ | LogFailed _ _ :: _ => false
  | _ :: t1 => accounted t1
  end.

(** The records [main] and [process_path] write themselves, outside
    [apply_permission_change]. *)
Definition notice (e : event) : bool :=
  match e with
  | LogMissing _ | LogBadPattern _ => true
  | _ => false
  end.

(** After the run [r] the entry [q] holds the bits [v] and chmod has been
    called on it. *)
Definition settled {A : Type} (v : Z) (q : path) (r : run A) : Prop :=
  fs_after r !! q = Some v /\ q ∈ chmod_targets (trace r).

(** The first scenario, run by a privileged user. *)
Definition demo_env_root : env :=
  Env true true true demo_tree sub_glob_from_lines.

(** Every entry of the structure belongs to the invoking user. *)
Fixpoint owned (n : node) : bool :=
  match n with
  | File w => is_owner w
  | Dir w es => is_owner w && forallb (fun e => owned (snd e)) es
  end.

(** The owner may list and search the directory at [p]. *)
Definition open_dir (s : store) (p : path) : Prop :=
  Z.testbit (mode_of s p) 8 = true /\ Z.testbit (mode_of s p) 6 = true.

(** The walk can enter [top]: the path resolves to [n] and the directory is
    open to its owner. *)
Definition ready (E : env) (s : store) (top : path) (n : node) : Prop :=
  stat E s top = inr n /\ open_dir s top.

(** The records a run with the rejected permission string [p] may write. *)
Definition inert_record (p : string) (e : event) : bool :=
  match e with
  | LogInvalid p' => bool_decide (p' = p)
  | LogSkipping _ | LogMissing _ | LogBadPattern _ => true
  | _ => false
  end.

(** In the list [l] of paths every path comes before the paths that lie
    properly below it. *)
Definition top_down (l : list path) : Prop :=
  forall (i j : nat) (p q : path),
    l !! i = Some p -> l !! j = Some q -> strictly_below p q -> (i < j)%nat.

(** * Properties *)

(** ** Unfolding the monad *)

Lemma run_bind {A B} (c : M A) (k : A -> M B) (s : store) :
  (c ≫= k) s =
  match res (c s) with
  | Ret a => Run (res (k a (fs_after (c s)))) (fs_after (k a (fs_after (c s))))
                 (trace (c s) ++ trace (k a (fs_after (c s))))
  | Raise e => Run (Raise e) (fs_after (c s)) (trace (c s))
  end.
Proof. reflexivity. Qed.

Lemma run_ret {A} (a : A) (s : store) : (mret a : M A) s = Run (Ret a) s [].
Proof. reflexivity. Qed.

Lemma run_eta {A} (r : run A) : Run (res r) (fs_after r) (trace r) = r.
Proof. by destruct r. Qed.

Lemma run_try {A} (c : M A) (h : exn -> option (M A)) (s : store) :
  try_except c h s =
  match res (c s) with
  | Ret a => c s
  | Raise e =>
      match h e with
      | Some k => Run (res (k (fs_after (c s)))) (fs_after (k (fs_after (c s))))
                      (trace (c s) ++ trace (k (fs_after (c s))))
      | None => c s
      end
  end.
Proof. reflexivity. Qed.

Ltac unfold_monad :=
  unfold mbind, M_bind, mret, M_ret, emit, raise, try_except in *; simpl in *.

(** ** The numeric value of an octal string *)








(** ** One entry: [apply_permission_change] *)


(** C6: an entry matched by the exclusion matcher is left alone: no chmod
    call is made, the mode bits are unchanged, and the only record is the
    "skipping excluded path" one. *)
Theorem excluded_entry_is_skipped E target permissions exclude_spec s :
  excluded exclude_spec target = true ->
  let r := apply_permission_change E target permissions exclude_spec s in
  r = Run (Ret None) s [LogSkipping target] /\
  fs_after r = s /\
  (forall q mode, SysChmod q mode ∉ trace r).
Proof.
  intros Hex. unfold apply_permission_change. rewrite Hex. unfold_monad.
  split; [done|]. split; [done|].
  intros q mode Hin. apply list_elem_of_singleton in Hin. discriminate Hin.
Qed.

Lemma excluded_entry_is_skipped_witness :
  fs_after (apply_permission_change demo_env ["d"; "a.txt"] (Some "755")
              (Some (String.eqb "/d/a.txt")) demo_modes) = demo_modes.
Proof.
  apply (excluded_entry_is_skipped demo_env ["d"; "a.txt"] (Some "755")
           (Some (String.eqb "/d/a.txt")) demo_modes).
  reflexivity.
Defined.






(** ** Path resolution reads the modes of proper ancestors only *)

Lemma resolve_agree E s s' n here rest :
  (forall k, strictly_above rest k -> s !! (here ++ k) = s' !! (here ++ k)) ->
  resolve E s n here rest = resolve E s' n here rest.
Proof.
  revert n here. induction rest as [|name rest IH]; intros n here Hag; [done|].
  simpl. destruct n as [|w es]; [done|].
  assert (Hm : may E s here w X = may E s' here w X).
  { unfold may, mode_of. specialize (Hag []). rewrite app_nil_r in Hag.
    rewrite Hag; [done|]. split; [apply prefix_nil|done]. }
  rewrite Hm. destruct (may E s' here w X); [|done].
  destruct (lookup_entry name es) as [c|]; [|done].
  apply IH. intros k [Hk Hne]. rewrite <- app_assoc. simpl. apply Hag.
  split; [by apply prefix_cons|congruence].
Qed.

Lemma stat_agree E s s' p :
  agree_on (strictly_above p) s s' -> stat E s p = stat E s' p.
Proof. intros Hag. apply resolve_agree. intros k Hk. apply Hag, Hk. Qed.

Lemma readdir_agree E s s' p :
  agree_on (fun q => q `prefix_of` p) s s' -> readdir E s p = readdir E s' p.
Proof.
  intros Hag. unfold readdir.
  rewrite (stat_agree E s s' p) by (intros q [Hq _]; by apply Hag).
  destruct (stat E s' p) as [|[|w es]]; [done..|].
  unfold may, mode_of. by rewrite (Hag p).
Qed.

Lemma resolve_find E s n here rest c :
  resolve E s n here rest = inr c -> find_node n rest = Some c.
Proof.
  revert n here. induction rest as [|name rest IH]; simpl; intros n here H.
  - congruence.
  - destruct n as [|w es]; [done|]. destruct (may E s here w X); [|done].
    destruct (lookup_entry name es); [|done]. eauto.
Qed.

Lemma stat_find E s p c : stat E s p = inr c -> find_node (tree E) p = Some c.
Proof. apply resolve_find. Qed.

Lemma resolve_snoc E s n here rest name :
  resolve E s n here (rest ++ [name]) =
  match resolve E s n here rest with
  | inl e => inl e
  | inr (File _) => inl ENOTDIR
  | inr (Dir w es) =>
      if may E s (here ++ rest) w X then
        match lookup_entry name es with
        | Some c => inr c
        | None => inl ENOENT
        end
      else inl EACCES
  end.
Proof.
  revert n here. induction rest as [|x rest IH]; intros n here; simpl.
  - rewrite app_nil_r. destruct n as [|w es]; [done|].
    destruct (may E s here w X); [|done]. by destruct (lookup_entry name es).
  - destruct n as [|w es]; [done|]. destruct (may E s here w X); [|done].
    destruct (lookup_entry x es) as [c|]; [|done].
    rewrite IH, <- app_assoc. done.
Qed.

Lemma stat_snoc E s p name :
  stat E s (p ++ [name]) =
  match stat E s p with
  | inl e => inl e
  | inr (File _) => inl ENOTDIR
  | inr (Dir w es) =>
      if may E s p w X then
        match lookup_entry name es with
        | Some c => inr c
        | None => inl ENOENT
        end
      else inl EACCES
  end.
Proof. unfold stat. by rewrite resolve_snoc. Qed.

(** ** One entry, in closed form *)

Lemma apply_permission_change_outcome E q permissions exclude_spec s :
  apply_permission_change E q permissions exclude_spec s
  = entry_outcome E q permissions exclude_spec s.
Proof.
  unfold apply_permission_change, entry_outcome, directive_mode, applied_record.
  destruct (excluded exclude_spec q); [done|].
  destruct (truthy permissions).
  - unfold int8. destruct (py_int8 (default "" permissions)) as [m|]; [|done].
    rewrite !run_try, !run_bind, run_ret. cbn [res fs_after trace].
    rewrite !run_bind. unfold os_chmod.
    destruct (in_c_int m); [|done].
    destruct (stat E s q) as [e|n]; [done|].
    by destruct (euid_root E || is_owner (who_of n)).
  - destruct (os_posix E); [|done].
    rewrite !run_try, !run_bind. unfold os_chmod. simpl in_c_int. cbn match.
    destruct (stat E s q) as [e|n]; [done|].
    by destruct (euid_root E || is_owner (who_of n)).
Qed.

(** ** Composing local computations *)

Lemma chmod_targets_app t1 t2 :
  chmod_targets (t1 ++ t2) = chmod_targets t1 ++ chmod_targets t2.
Proof.
  induction t1 as [|e t1 IH]; [done|]. destruct e; simpl; by rewrite ?IH.
Qed.

Lemma local_mono {A} (Rd Wr Rd' Wr' : path -> Prop) (c : M A) :
  local Rd Wr c ->
  (forall q, Rd q -> Rd' q) -> (forall q, Wr q -> Wr' q) ->
  local Rd' Wr' c.
Proof.
  intros [Hf Htg Ha] HR HW. split.
  - intros s q Hq. apply Hf. intros Hw. apply Hq. auto.
  - intros s. destruct (Htg s) as [H1 H2]. split; [|done]. auto.
  - intros s s' H1 H2. apply Ha; intros q Hq; [apply H1|apply H2]; auto.
Qed.

Lemma local_ret {A} (Rd Wr : path -> Prop) (a : A) : local Rd Wr (mret a).
Proof.
  split; [done| |done]. intros s. simpl. split; [|constructor].
  intros q Hq. by apply not_elem_of_nil in Hq.
Qed.

Lemma local_bind {A B} (Rd Wr Rd1 Wr1 Rd2 Wr2 : path -> Prop)
    (c : M A) (k : A -> M B) :
  local Rd1 Wr1 c ->
  (forall s a, res (c s) = Ret a -> local Rd2 Wr2 (k a)) ->
  (forall q, Wr1 q -> ~ Wr2 q) ->
  (forall q, Rd1 q -> Rd q) ->
  (forall q, Rd2 q -> Wr1 q \/ (Rd q /\ ~ Wr1 q)) ->
  (forall q, Wr1 q -> Wr q) -> (forall q, Wr2 q -> Wr q) ->
  local Rd Wr (c ≫= k).
Proof.
  intros [Hf1 Htg1 Ha1] Hk Hdisj HR1 HR2 HW1 HW2. split.
  - intros s q Hq. rewrite run_bind.
    destruct (res (c s)) as [a|e] eqn:Hres; cbn [fs_after].
    + rewrite (Hf1 s q) by (intros Hw; apply Hq; auto).
      apply (local_frame _ _ _ (Hk s a Hres)). intros Hw. apply Hq. auto.
    + apply Hf1. intros Hw. apply Hq. auto.
  - intros s. rewrite run_bind. destruct (Htg1 s) as [Hin1 Hnd1].
    destruct (res (c s)) as [a|e] eqn:Hres; cbn [trace]; [|split; [auto|done]].
    destruct (local_targets _ _ _ (Hk s a Hres) (fs_after (c s))) as [Hin2 Hnd2].
    rewrite chmod_targets_app. split.
    + intros q [H|H]%elem_of_app; auto.
    + apply NoDup_app. split_and!; [done| |done].
      intros q H1 H2. eapply Hdisj; eauto.
  - intros s s' Hrd Hwr. rewrite (run_bind c k s) in Hwr |- *.
    rewrite (run_bind c k s').
    destruct (res (c s)) as [a|e] eqn:Hres; cbn [fs_after res trace] in *.
    + pose proof (local_frame _ _ _ (Hk s a Hres) (fs_after (c s))) as Hfk.
      assert (Hc : c s' = Run (Ret a) s' (trace (c s))).
      { rewrite <- Hres. apply Ha1.
        - intros q Hq. apply Hrd; auto.
        - intros q Hq. rewrite (Hfk q) by (intros Hw; by eapply Hdisj).
          apply Hwr; auto. }
      rewrite Hc. cbn [res fs_after trace].
      rewrite (local_again _ _ _ (Hk s a Hres) (fs_after (c s)) s'); [done| |].
      * intros q Hq. destruct (HR2 q Hq) as [Hw|[Hr Hw]].
        -- rewrite (Hfk q) by (intros Hw'; by eapply Hdisj). apply Hwr; auto.
        -- rewrite <- (Hf1 s q) by done. by apply Hrd.
      * intros q Hq. apply Hwr; auto.
    + assert (Hc : c s' = Run (Raise e) s' (trace (c s))).
      { rewrite <- Hres. apply Ha1.
        - intros q Hq. apply Hrd; auto.
        - intros q Hq. apply Hwr; auto. }
      by rewrite Hc.
Qed.

Lemma local_for_each {A} (Rd : path -> Prop) (Wf : A -> path -> Prop)
    (f : A -> M unit) (l : list A) :
  (forall x, x ∈ l -> local Rd (Wf x) (f x)) ->
  (forall x q, x ∈ l -> Wf x q -> ~ Rd q) ->
  pairwise_apart Wf l ->
  local Rd (fun q => exists x, x ∈ l /\ Wf x q) (for_each f l).
Proof.
  induction l as [|x l IH]; intros Hloc Hrw Hpw.
  - apply local_ret.
  - destruct Hpw as [Hx Hpw]. simpl.
    eapply (local_bind Rd _ Rd (Wf x) Rd (fun q => exists y, y ∈ l /\ Wf y q)).
    + apply Hloc. left.
    + intros _ _ _. apply IH; [|by eauto using list_elem_of_further|done].
      intros y Hy. apply Hloc. by right.
    + intros q Hq (y & Hy & Hw). by eapply Hx.
    + done.
    + intros q Hq. right. split; [done|]. intros Hw. eapply Hrw; [left|done..].
    + intros q Hq. exists x. split; [left|done].
    + intros q (y & Hy & Hw). exists y. split; [by right|done].
Qed.

(** A computation that only inspects the modes of [Rd]. *)
Lemma local_read {A} (Rd Wr : path -> Prop) (c : M A) :
  (forall s, fs_after (c s) = s /\ trace (c s) = []) ->
  (forall s s', agree_on Rd s s' -> res (c s) = res (c s')) ->
  local Rd Wr c.
Proof.
  intros Hpure Hres. split.
  - intros s q _. by rewrite (proj1 (Hpure s)).
  - intros s. rewrite (proj2 (Hpure s)). simpl. split; [|constructor].
    intros q Hq. by apply not_elem_of_nil in Hq.
  - intros s s' Hrd _. rewrite (Hres s s' Hrd).
    destruct (Hpure s') as [H1 H2]. rewrite (proj2 (Hpure s)).
    destruct (c s') as [r f t]. simpl in *. by subst.
Qed.

Lemma local_ext {A} (Rd Wr : path -> Prop) (c c' : M A) :
  (forall s, c s = c' s) -> local Rd Wr c -> local Rd Wr c'.
Proof.
  intros Heq [Hf Htg Ha]. split.
  - intros s. rewrite <- Heq. apply Hf.
  - intros s. rewrite <- Heq. apply Htg.
  - intros s s'. rewrite <- !Heq. apply Ha.
Qed.

(** ** Ancestors and descendants *)

Lemma prefix_snoc_inv (q p : path) x :
  q `prefix_of` p ++ [x] -> q `prefix_of` p \/ q = p ++ [x].
Proof.
  intros [k Hk]. destruct (decide (k = [])) as [->|Hne].
  - right. by rewrite app_nil_r in Hk.
  - left. destruct (exists_last Hne) as (k' & y & ->).
    rewrite app_assoc in Hk. apply app_inj_tail in Hk as [-> _].
    by exists k'.
Qed.

Lemma strictly_above_snoc (p q : path) x :
  strictly_above (p ++ [x]) q <-> q `prefix_of` p.
Proof.
  split.
  - intros [Hpre Hne]. by destruct (prefix_snoc_inv _ _ _ Hpre).
  - intros Hpre. split; [by apply prefix_app_r|].
    intros ->. by apply prefix_snoc_not in Hpre.
Qed.

Lemma strictly_below_length (p q : path) :
  strictly_below p q -> (length p < length q)%nat.
Proof.
  intros [[k ->] Hne]. rewrite length_app.
  destruct k; [by rewrite app_nil_r in Hne|simpl; lia].
Qed.

Lemma snoc_prefix_inj (p q : path) x y :
  p ++ [x] `prefix_of` q -> p ++ [y] `prefix_of` q -> x = y.
Proof.
  intros [k1 ->] [k2 Hk]. rewrite <- !app_assoc in Hk.
  apply app_inv_head in Hk. simpl in Hk. congruence.
Qed.

(** ** The structure below a directory *)

Lemma node_induction (P : node -> Prop) :
  (forall w, P (File w)) ->
  (forall w es, (forall name c, (name, c) ∈ es -> P c) -> P (Dir w es)) ->
  forall n, P n.
Proof.
  intros HF HD. fix IH 1. intros [w|w es]; [apply HF|]. apply HD.
  assert (Hall : Forall (fun e => P (snd e)) es).
  { induction es as [|[k c] es IHes]; constructor; [apply IH|apply IHes]. }
  intros name c Hin. rewrite Forall_forall in Hall. by apply (Hall (name, c)).
Qed.

Lemma lookup_entry_elem (es : list (string * node)) name c :
  NoDup (fst <$> es) -> (name, c) ∈ es -> lookup_entry name es = Some c.
Proof.
  induction es as [|[k c'] es IH]; intros Hnd Hin.
  - by apply not_elem_of_nil in Hin.
  - simpl in *. apply NoDup_cons in Hnd as [Hk Hnd].
    apply elem_of_cons in Hin as [Heq|Hin].
    + injection Heq as -> ->. by rewrite bool_decide_eq_true_2.
    + rewrite bool_decide_eq_false_2; [by apply IH|].
      intros ->. apply Hk. apply list_elem_of_fmap. by exists (name, c).
Qed.

Lemma lookup_entry_Some (es : list (string * node)) name c :
  lookup_entry name es = Some c -> (name, c) ∈ es.
Proof.
  induction es as [|[k c'] es IH]; simpl; [done|].
  case_bool_decide as Hk.
  - intros [= ->]. subst. left.
  - intros H. right. by apply IH.
Qed.

Lemma find_node_snoc n p name :
  find_node n (p ++ [name]) =
  match find_node n p with
  | Some (Dir _ es) => lookup_entry name es
  | _ => None
  end.
Proof.
  revert n. induction p as [|x p IH]; intros n; simpl.
  - destruct n as [|w es]; [done|]. by destruct (lookup_entry name es).
  - destruct n as [|w es]; [done|]. destruct (lookup_entry x es); [|done].
    apply IH.
Qed.

Lemma wf_node_Dir w es :
  wf_node (Dir w es) = true ->
  NoDup (fst <$> es) /\ (forall name c, (name, c) ∈ es -> wf_node c = true).
Proof.
  simpl. intros [Hnd Hall]%andb_true_iff. split.
  - by apply bool_decide_eq_true in Hnd.
  - intros name c Hin. rewrite forallb_forall in Hall.
    apply (Hall (name, c)). by apply list_elem_of_In.
Qed.

Lemma wf_find_node n p c :
  wf_node n = true -> find_node n p = Some c -> wf_node c = true.
Proof.
  revert n. induction p as [|x p IH]; simpl; intros n Hwf Hf.
  - congruence.
  - destruct n as [|w es]; [done|].
    destruct (lookup_entry x es) as [c'|] eqn:Hl; [|done].
    apply (IH c'); [|done].
    apply wf_node_Dir in Hwf as [_ Hall]. eapply Hall.
    by apply lookup_entry_Some.
Qed.

(** ** The calls of the program are local *)

Section Locality.

Variable E : env.
Variable permissions : option string.
Variable exclude_spec : option (string -> bool).

Lemma local_apply q :
  local (strictly_above q) (touched q)
        (apply_permission_change E q permissions exclude_spec).
Proof.
  split.
  - intros s x Hx. rewrite apply_permission_change_outcome.
    unfold entry_outcome. destruct (excluded exclude_spec q); [done|].
    destruct (directive_mode E permissions) as [m|] eqn:Hm;
      [|by destruct (truthy permissions)].
    destruct (in_c_int m); [|done]. destruct (stat E s q) as [e|n]; [done|].
    destruct (euid_root E || is_owner (who_of n)); [|done].
    cbn [fs_after]. rewrite lookup_insert_ne; [done|].
    intros ->. by apply Hx.
  - intros s. rewrite apply_permission_change_outcome.
    unfold entry_outcome, applied_record.
    destruct (excluded exclude_spec q);
      [simpl; split; [by intros ? ?%not_elem_of_nil|constructor]|].
    destruct (directive_mode E permissions) as [m|] eqn:Hm.
    + assert (Hone : (forall x, x ∈ [q] -> touched q x) /\ NoDup [q]).
      { split; [by intros x ->%list_elem_of_singleton|apply NoDup_singleton]. }
      destruct (in_c_int m);
        [|simpl; split; [by intros ? ?%not_elem_of_nil|constructor]].
      destruct (stat E s q) as [e|n]; [done|].
      destruct (euid_root E || is_owner (who_of n)); [|done].
      by destruct (truthy permissions).
    + destruct (truthy permissions);
        (simpl; split; [by intros ? ?%not_elem_of_nil|constructor]).
  - intros s s' Hrd Hwr. rewrite !apply_permission_change_outcome in *.
    unfold entry_outcome in *. destruct (excluded exclude_spec q); [done|].
    destruct (directive_mode E permissions) as [m|] eqn:Hm;
      [|by destruct (truthy permissions)].
    destruct (in_c_int m); [|done].
    rewrite <- (stat_agree E s s' q Hrd).
    destruct (stat E s q) as [e|n]; [done|].
    destruct (euid_root E || is_owner (who_of n)); [|done].
    cbn [res fs_after trace] in *. f_equal. apply insert_id.
    rewrite <- Hwr; [by rewrite lookup_insert_eq|done].
Qed.

Lemma local_path_stat {A} (Wr : path -> Prop) p (f : option node -> A) :
  local (strictly_above p) Wr (n ← path_stat E p; mret (f n)).
Proof.
  apply local_read.
  - intros s. rewrite run_bind. unfold path_stat.
    destruct (stat E s p) as [[]|]; try done;
      by destruct (pathlib_reraises E).
  - intros s s' Hag. rewrite !run_bind. unfold path_stat.
    rewrite (stat_agree E s s' p Hag).
    destruct (stat E s' p) as [[]|]; try done;
      by destruct (pathlib_reraises E).
Qed.

Lemma local_listdir (Wr : path -> Prop) p :
  local (fun q => q `prefix_of` p) Wr (os_listdir E p).
Proof.
  apply local_read.
  - intros s. unfold os_listdir. by destruct (readdir E s p).
  - intros s s' Hag. unfold os_listdir. rewrite (readdir_agree E s s' p Hag).
    by destruct (readdir E s' p).
Qed.

End Locality.

Section Traversal.

Variable E : env.
Variable permissions : option string.
Variable exclude_spec : option (string -> bool).

Local Abbreviation apply_to := (fun q => apply_permission_change E q permissions exclude_spec).

Lemma touched_not_above top x q : touched (top ++ [x]) q -> ~ q `prefix_of` top.
Proof. intros -> Hpre. by apply prefix_snoc_not in Hpre. Qed.

Lemma pairwise_apart_touched top (Q : path -> Prop) (l : list string) :
  NoDup l -> pairwise_apart (fun x q => touched (top ++ [x]) q /\ Q q) l.
Proof.
  induction 1 as [|x l Hx Hnd IH]; simpl; [done|]. split; [|done].
  intros y q Hy [-> _] [Heq _].
  apply app_inj_tail in Heq as [_ ->]. done.
Qed.

Lemma local_apply_child top x :
  local (fun q => q `prefix_of` top) (touched (top ++ [x]))
        (apply_to (top ++ [x]);; mret tt).
Proof.
  eapply (local_bind _ _ (strictly_above (top ++ [x])) (touched (top ++ [x]))
            (fun _ => False) (fun _ => False)).
  - apply local_apply.
  - intros _ _ _. apply local_ret.
  - by intros q _ [].
  - intros q Hq. by apply strictly_above_snoc in Hq.
  - by intros q [].
  - done.
  - by intros q [].
Qed.

Lemma local_files_loop top (files : list string) :
  NoDup files ->
  local (fun q => q `prefix_of` top)
        (fun q => exists f, f ∈ files /\ touched (top ++ [f]) q)
        (for_each (fun file => apply_to (top ++ [file]);; mret tt) files).
Proof.
  intros Hnd. apply local_for_each.
  - intros x _. apply local_apply_child.
  - intros x q _. apply touched_not_above.
  - eapply (pairwise_apart_touched top (fun _ => True)) in Hnd.
    clear -Hnd. induction files as [|x l IH]; simpl in *; [done|].
    destruct Hnd as [H1 H2]. split; [|by apply IH].
    intros y q Hy Hq Hq'. by eapply (H1 y q).
Qed.

Lemma local_dir_step top name :
  local (fun q => q `prefix_of` top)
        (fun q => touched (top ++ [name]) q /\ is_dir_at E q)
        (d ← path_is_dir E (top ++ [name]);
         if d : bool then apply_to (top ++ [name]);; mret tt else mret tt).
Proof.
  eapply (local_bind _ _ (strictly_above (top ++ [name])) (fun _ => False)
            (fun q => q `prefix_of` top)
            (fun q => touched (top ++ [name]) q /\ is_dir_at E q)).
  - apply local_path_stat.
  - intros s d Hd. destruct d; [|apply local_ret].
    assert (Hdir : is_dir_at E (top ++ [name])).
    { unfold path_is_dir, path_stat in Hd. rewrite run_bind in Hd.
      destruct (stat E s (top ++ [name])) as [e|n] eqn:Hst.
      - destruct e; simpl in Hd; try discriminate Hd;
          destruct (pathlib_reraises E); discriminate Hd.
      - destruct n as [|w es]; [discriminate Hd|].
        exists w, es. by eapply stat_find. }
    eapply local_mono; [apply local_apply_child|done|].
    intros q Hq. split; [done|]. by rewrite Hq.
  - by intros q [].
  - intros q Hq. by apply strictly_above_snoc in Hq.
  - intros q Hq. right. split; [done|tauto].
  - by intros q [].
  - done.
Qed.

Lemma local_dirs_loop top (names : list string) :
  NoDup names ->
  local (fun q => q `prefix_of` top)
        (fun q => exists name, name ∈ names /\
                               touched (top ++ [name]) q /\ is_dir_at E q)
        (for_each (fun dir_name =>
           d ← path_is_dir E (top ++ [dir_name]);
           if d : bool then apply_to (top ++ [dir_name]);; mret tt
           else mret tt) names).
Proof.
  intros Hnd.
  apply (local_for_each _ (fun x q => touched (top ++ [x]) q /\ is_dir_at E q)).
  - intros x _. apply local_dir_step.
  - intros x q _ [Hq _]. by eapply touched_not_above.
  - by apply pairwise_apart_touched.
Qed.

Lemma file_names_NoDup (es : list (string * node)) :
  NoDup (fst <$> es) -> NoDup (file_names es).
Proof.
  intros Hnd. eapply sublist_NoDup; [exact Hnd|].
  apply fmap_sublist, sublist_filter.
Qed.

Lemma file_names_kind (es : list (string * node)) f :
  NoDup (fst <$> es) -> f ∈ file_names es ->
  exists w, lookup_entry f es = Some (File w).
Proof.
  intros Hnd Hin. unfold file_names in Hin.
  apply list_elem_of_fmap in Hin as ([k c] & -> & Hin).
  apply list_elem_of_filter in Hin as [Hk Hin]. simpl in *.
  destruct c as [w|]; [|discriminate Hk]. exists w.
  by apply lookup_entry_elem.
Qed.

Lemma listdir_names s top w es names :
  find_node (tree E) top = Some (Dir w es) ->
  res (os_listdir E top s) = Ret names -> names = fst <$> es.
Proof.
  intros Hf. unfold os_listdir, readdir.
  destruct (stat E s top) as [e|n] eqn:Hst; [done|].
  apply stat_find in Hst. rewrite Hf in Hst. injection Hst as <-.
  destruct (may E s top w R); [|done]. simpl. congruence.
Qed.

(** What a listing returns is what the structure holds: the recursion of
    [os_walk] along the structure follows the listings of the moment. *)
Lemma readdir_entries s top w es es' :
  find_node (tree E) top = Some (Dir w es) ->
  readdir E s top = inr es' -> es' = es.
Proof.
  intros Hf. unfold readdir.
  destruct (stat E s top) as [e|n] eqn:Hst; [done|].
  apply stat_find in Hst. rewrite Hf in Hst. injection Hst as <-.
  destruct (may E s top w R); [|done]. congruence.
Qed.

Lemma local_walk_body top w es :
  find_node (tree E) top = Some (Dir w es) ->
  NoDup (fst <$> es) ->
  local (fun q => q `prefix_of` top) (touched_child top)
        (walk_body E permissions exclude_spec top (dir_names es) (file_names es)).
Proof.
  intros Hf Hnd. unfold walk_body.
  eapply (local_bind _ _ (fun q => q `prefix_of` top)
            (fun q => exists f, f ∈ file_names es /\ touched (top ++ [f]) q)
            (fun q => q `prefix_of` top)
            (fun q => exists name, name ∈ fst <$> es /\
                                   touched (top ++ [name]) q /\ is_dir_at E q)).
  - apply local_files_loop. by apply file_names_NoDup.
  - intros _ _ _.
    eapply (local_bind _ _ (fun q => q `prefix_of` top) (fun _ => False)
              (fun q => q `prefix_of` top) _).
    + apply local_listdir.
    + intros s names Hnames. rewrite (listdir_names _ _ _ _ _ Hf Hnames).
      by apply local_dirs_loop.
    + by intros q [].
    + done.
    + intros q Hq. right. split; [done|tauto].
    + by intros q [].
    + done.
  - intros q (f & Hin & ->) (name & _ & _ & (w' & es' & Hdir)).
    destruct (file_names_kind es f Hnd Hin) as [wf Hl].
    rewrite find_node_snoc, Hf, Hl in Hdir. discriminate Hdir.
  - done.
  - intros q Hq. right. split; [done|].
    intros (f & _ & Hq'). by eapply touched_not_above.
  - intros q (f & _ & Hq). by exists f.
  - intros q (name & _ & Hq & _). by exists name.
Qed.

End Traversal.

Section Walk.

Variable E : env.
Variable permissions : option string.
Variable exclude_spec : option (string -> bool).

Lemma local_guard {A B : Type} (Rd Wr : path -> Prop) (g : store -> errno + B)
    (c : M A) (a : A) :
  (forall s s', agree_on Rd s s' -> g s = g s') ->
  local Rd Wr c ->
  local Rd Wr (fun s => match g s with
                        | inl _ => Run (Ret a) s []
                        | inr _ => c s
                        end).
Proof.
  intros Hg [Hf Htg Ha]. split.
  - intros s. destruct (g s); [done|apply Hf].
  - intros s. destruct (g s); [|apply Htg].
    simpl. split; [by intros ? ?%not_elem_of_nil|constructor].
  - intros s s' Hrd Hwr. rewrite <- (Hg s s' Hrd).
    destruct (g s); [done|]. by apply Ha.
Qed.

Lemma local_emit (Rd Wr : path -> Prop) (e : event) :
  chmod_targets [e] = [] -> local Rd Wr (emit e).
Proof.
  intros He. split; [done| |done]. intros s. cbn [emit trace]. rewrite He.
  split; [by intros ? ?%not_elem_of_nil|constructor].
Qed.

Lemma pairwise_apart_below top (es : list (string * node)) :
  NoDup (fst <$> es) ->
  pairwise_apart
    (fun (e : string * node) q =>
       is_dir_node (snd e) = true /\ strictly_below (top ++ [fst e]) q) es.
Proof.
  induction es as [|[k c] es IH]; simpl; intros Hnd; [done|].
  apply NoDup_cons in Hnd as [Hk Hnd]. split; [|by apply IH].
  intros [k' c'] q Hin [_ [H1 _]] [_ [H2 _]]. simpl in *.
  pose proof (snoc_prefix_inj _ _ _ _ H1 H2) as ->.
  apply Hk. apply list_elem_of_fmap. by exists (k', c').
Qed.

Lemma local_os_walk n :
  forall top,
    wf_node n = true -> find_node (tree E) top = Some n ->
    local (fun q => q `prefix_of` top) (strictly_below top)
          (os_walk E (walk_body E permissions exclude_spec) top n).
Proof.
  induction n as [w|w es IH] using node_induction; intros top Hwf Hfind.
  - apply local_ret.
  - destruct (wf_node_Dir _ _ Hwf) as [Hnd Hwfs].
    eapply (local_ext _ _
      (fun s => match readdir E s top with
                | inl _ => Run (Ret tt) s []
                | inr _ =>
                    (walk_body E permissions exclude_spec top
                       (dir_names es) (file_names es);;
                     for_each (fun e =>
                       if is_dir_node (snd e)
                       then os_walk E (walk_body E permissions exclude_spec)
                              (top ++ [fst e]) (snd e)
                       else mret tt) es) s
                end)); [done|].
    apply local_guard; [intros s s' Hag; by apply readdir_agree|].
    eapply (local_bind _ _ (fun q => q `prefix_of` top) (touched_child top)
      (fun q => q `prefix_of` top \/ touched_child top q)
      (fun q => exists e, e ∈ es /\
         is_dir_node (snd e) = true /\ strictly_below (top ++ [fst e]) q)).
    + by eapply local_walk_body.
    + intros _ _ _. apply local_for_each.
      * intros [name c] Hin. simpl.
        destruct (is_dir_node c) eqn:Hdir; [|apply local_ret].
        eapply local_mono.
        -- apply (IH name c Hin (top ++ [name])); [by eapply Hwfs|].
           rewrite find_node_snoc, Hfind. by apply lookup_entry_elem.
        -- intros q Hq. destruct (prefix_snoc_inv _ _ _ Hq) as [Hq'| ->];
             [by left|right; by exists name].
        -- done.
      * intros e q _ [_ Hb%strictly_below_length] [Hq|[name ->]].
        -- apply prefix_length in Hq. rewrite length_app in Hb. simpl in Hb. lia.
        -- rewrite !length_app in Hb. simpl in Hb. lia.
      * by apply pairwise_apart_below.
    + intros q [name ->] (e & _ & _ & Hb%strictly_below_length).
      rewrite !length_app in Hb. simpl in Hb. lia.
    + done.
    + intros q [Hq|Hq]; [right|by left]. split; [done|].
      intros [name ->]. by apply prefix_snoc_not in Hq.
    + intros q [name ->]. split; [by apply prefix_app_r|].
      intros Heq. apply (f_equal length) in Heq. rewrite length_app in Heq.
      simpl in Heq. lia.
    + intros q (e & _ & _ & [Hpre Hne]). split.
      * by eapply prefix_app_l.
      * intros ->. apply prefix_length in Hpre. rewrite length_app in Hpre.
        simpl in Hpre. lia.
Qed.

Lemma local_for_os_walk top :
  wf_node (tree E) = true ->
  local (fun q => q `prefix_of` top) (strictly_below top)
        (for_os_walk E top (walk_body E permissions exclude_spec)).
Proof.
  intros Hwf. unfold for_os_walk.
  destruct (find_node (tree E) top) as [n|] eqn:Hfind; [|apply local_ret].
  apply local_os_walk; [by eapply wf_find_node|done].
Qed.

(** The whole traversal reads the proper ancestors of the target and may
    change the target and what lies below it. *)
Lemma local_process_path target recursive :
  wf_node (tree E) = true ->
  local (strictly_above target) (fun q => target `prefix_of` q)
        (process_path E target permissions recursive exclude_spec).
Proof.
  intros Hwf. unfold process_path, path_exists, path_is_file, path_is_dir.
  set (Rd := strictly_above target).
  set (Wr := fun q : path => target `prefix_of` q).
  assert (Hsep : forall q, Rd q -> ~ Wr q).
  { intros q [H1 H2] H3. apply H2. by apply (anti_symm prefix). }
  assert (Happly : local Rd Wr
            (apply_permission_change E target permissions exclude_spec)).
  { eapply local_mono; [apply local_apply|done|].
    intros q Hq. rewrite Hq. by exists []; rewrite app_nil_r. }
  eapply (local_bind Rd Wr Rd (fun _ => False) Rd Wr);
    [apply local_path_stat| |by intros q []|done|
     intros q Hq; right; split; [done|tauto] |by intros q []|done].
  intros _ ex _. destruct (negb ex).
  { eapply (local_bind Rd Wr Rd (fun _ => False) Rd (fun _ => False));
      [|intros; apply local_ret|by intros q []|done|
       intros q Hq; right; split; [done|tauto] |by intros q []|by intros q []].
    by apply local_emit. }
  eapply (local_bind Rd Wr Rd (fun _ => False) Rd Wr);
    [apply local_path_stat| |by intros q []|done|
     intros q Hq; right; split; [done|tauto] |by intros q []|done].
  intros _ f _.
  eapply (local_bind Rd Wr Rd Wr Rd (fun _ => False));
    [|intros; apply local_ret|by intros q _ []|done|
     intros q Hq; right; split; [done|by apply Hsep] |done|by intros q []].
  destruct f.
  { eapply (local_bind Rd Wr Rd Wr Rd (fun _ => False));
      [apply Happly|intros; apply local_ret|by intros q _ []|done|
       intros q Hq; right; split; [done|by apply Hsep] |done|by intros q []]. }
  eapply (local_bind Rd Wr Rd (fun _ => False) Rd Wr);
    [apply local_path_stat| |by intros q []|done|
     intros q Hq; right; split; [done|tauto] |by intros q []|done].
  intros _ d _. destruct d; [|apply local_ret].
  eapply (local_bind Rd Wr (strictly_above target) (touched target)
            (fun q => Rd q \/ touched target q) (strictly_below target)).
  - apply local_apply.
  - intros _ _ _. destruct recursive; [|apply local_ret].
    eapply local_mono; [by apply local_for_os_walk| |done].
    intros q Hq. destruct (decide (q = target)) as [->|Hne];
      [by right|by left].
  - intros q -> [_ Hne]. done.
  - done.
  - intros q [Hq| ->]; [right|by left]. split; [done|].
    intros ->. by destruct Hq.
  - intros q Hq. rewrite Hq. by exists []; rewrite app_nil_r.
  - by intros q [Hq _].
Qed.

End Walk.

(** ** Running the traversal twice; calling chmod once per entry *)

Lemma filter_eq_not_elem (q : path) (l : list path) :
  q ∉ l -> filter (fun x => x = q) l = [].
Proof.
  induction l as [|x l IH]; [done|]. intros Hq.
  apply not_elem_of_cons in Hq as [Hne Hq].
  rewrite filter_cons, decide_False by done. by apply IH.
Qed.

Lemma NoDup_attempts (q : path) (l : list path) :
  NoDup l -> (length (filter (fun x => x = q) l) <= 1)%nat.
Proof.
  induction 1 as [|x l Hx Hnd IH]; [simpl; lia|].
  rewrite filter_cons. case_decide as Hq; [|done]. subst x. simpl.
  rewrite filter_eq_not_elem by done. simpl. lia.
Qed.



(** C9: in one traversal no path has chmod called on it twice; in
    particular every directory below the root is the target of at most one
    call, although directories are found both by the walk and by the
    separate listing of each level.  Every call is on the root or below. *)
Theorem each_entry_chmod_at_most_once E target permissions recursive exclude_spec s :
  wf_node (tree E) = true ->
  let r := process_path E target permissions recursive exclude_spec s in
  NoDup (chmod_targets (trace r)) /\
  (forall q, strictly_below target q -> is_dir_at E q ->
             (attempts q (trace r) <= 1)%nat) /\
  (forall q, (attempts q (trace r) <= 1)%nat) /\
  (forall q, q ∈ chmod_targets (trace r) -> target `prefix_of` q).
Proof.
  intros Hwf r.
  pose proof (local_process_path E permissions exclude_spec target recursive Hwf)
    as [_ Htargets _].
  destruct (Htargets s) as [Hin Hnd]. fold r in Hin, Hnd.
  split_and!; [done| | |done].
  - intros q _ _. by apply NoDup_attempts.
  - intros q. by apply NoDup_attempts.
Qed.

Lemma each_entry_chmod_at_most_once_witness :
  let r := process_path demo_env ["d"] (Some "755") true None demo_modes in
  NoDup (chmod_targets (trace r)) /\
  (forall q, strictly_below ["d"] q -> is_dir_at demo_env q ->
             (attempts q (trace r) <= 1)%nat) /\
  (forall q, (attempts q (trace r) <= 1)%nat) /\
  (forall q, q ∈ chmod_targets (trace r) -> ["d"] `prefix_of` q).
Proof.
  apply (each_entry_chmod_at_most_once demo_env ["d"] (Some "755") true None
           demo_modes).
  reflexivity.
Defined.

(** The directory [d/sub] of the scenario is reached, and once. *)
Lemma demo_walk_targets :
  chmod_targets
    (trace (process_path demo_env ["d"] (Some "755") true None demo_modes))
  = [["d"]; ["d"; "a.txt"]; ["d"; "sub"]; ["d"; "sub"; "b.txt"]].
Proof. vm_compute. reflexivity. Qed.

(** ** The result of the traversal *)

Lemma res_bind {A B} (c : M A) (k : A -> M B) (s : store) :
  res ((c ≫= k) s) =
  match res (c s) with
  | Ret a => res (k a (fs_after (c s)))
  | Raise e => Raise e
  end.
Proof. rewrite run_bind. by destruct (res (c s)). Qed.

Lemma fs_after_bind {A B} (c : M A) (k : A -> M B) (s : store) :
  fs_after ((c ≫= k) s) =
  match res (c s) with
  | Ret a => fs_after (k a (fs_after (c s)))
  | Raise e => fs_after (c s)
  end.
Proof. rewrite run_bind. by destruct (res (c s)). Qed.

Lemma for_each_returns {A} (f : A -> M unit) (l : list A) :
  (forall x s, x ∈ l -> res (f x s) = Ret tt) ->
  forall s, res (for_each f l s) = Ret tt.
Proof.
  induction l as [|x l IH]; intros Hf s; [done|].
  simpl. rewrite res_bind, Hf by left. apply IH.
  intros y s' Hy. apply Hf. by right.
Qed.

Lemma for_each_frame {A} (Wr : path -> Prop) (f : A -> M unit) (l : list A) :
  (forall x s, x ∈ l -> agree_on (fun q => ~ Wr q) s (fs_after (f x s))) ->
  forall s, agree_on (fun q => ~ Wr q) s (fs_after (for_each f l s)).
Proof.
  induction l as [|x l IH]; intros Hf s; [done|].
  simpl. rewrite fs_after_bind. intros q Hq.
  destruct (res (f x s)); rewrite (Hf x s) by (done || left); [|done].
  apply IH; [|done]. intros y s' Hy. apply Hf. by right.
Qed.

Lemma resolve_errors E s n here rest e :
  resolve E s n here rest = inl e ->
  e <> EPERM /\ (euid_root E = true -> e <> EACCES).
Proof.
  revert n here. induction rest as [|name rest IH]; simpl; intros n here H.
  - discriminate H.
  - destruct n as [|w es]; [by injection H as <-|].
    unfold may in H. destruct (euid_root E); simpl in H.
    + destruct (lookup_entry name es); [by eapply IH|by injection H as <-].
    + destruct (Z.testbit (mode_of s here) (perm_bit w X)).
      * destruct (lookup_entry name es); [|by injection H as <-].
        apply IH in H as [H1 H2]. split; [done|]. intros Hf. discriminate Hf.
      * by injection H as <-.
Qed.

Lemma path_stat_found E s p n :
  stat E s p = inr n -> path_stat E p s = Run (Ret (Some n)) s [].
Proof. unfold path_stat. by intros ->. Qed.

Lemma path_stat_returns E s p :
  euid_root E = true \/ pathlib_reraises E = false ->
  exists n, path_stat E p s = Run (Ret n) s [].
Proof.
  intros Hok. unfold path_stat. destruct (stat E s p) as [e|n] eqn:Hst; [|eauto].
  apply resolve_errors in Hst as [H1 H2].
  destruct e; eauto; destruct Hok as [Hr| ->]; eauto; by destruct (H2 Hr).
Qed.

Lemma run_bind_pure {A B} (c : M A) (k : A -> M B) (s : store) (a : A) :
  c s = Run (Ret a) s [] -> (c ≫= k) s = k a s.
Proof. intros H. rewrite run_bind, H. simpl. apply run_eta. Qed.

Lemma run_bind_congr {A B} (c c' : M A) (k : A -> M B) (s : store) :
  c s = c' s -> (c ≫= k) s = (c' ≫= k) s.
Proof. intros H. by rewrite !run_bind, H. Qed.

(** What [process_path] does once the target has been found. *)
Lemma process_path_found E target permissions recursive exclude_spec s n :
  stat E s target = inr n ->
  process_path E target permissions recursive exclude_spec s =
  ((match n with
    | File _ =>
        apply_permission_change E target permissions exclude_spec;; mret tt
    | Dir _ _ =>
        apply_permission_change E target permissions exclude_spec;;
        if recursive
        then for_os_walk E target (walk_body E permissions exclude_spec)
        else mret tt
    end);; mret 0) s.
Proof.
  intros Hst. unfold process_path.
  rewrite (run_bind_pure (path_exists E target) _ s true).
  2:{ unfold path_exists.
      rewrite (run_bind_pure (path_stat E target) _ s (Some n));
        [|by apply path_stat_found].
      by rewrite run_ret, bool_decide_eq_true_2 by eauto. }
  cbn [negb].
  rewrite (run_bind_pure (path_is_file E target) _ s
             (match n with File _ => true | _ => false end)).
  2:{ unfold path_is_file.
      by rewrite (run_bind_pure (path_stat E target) _ s (Some n));
        [|by apply path_stat_found]. }
  destruct n as [w|w es]; [done|].
  apply run_bind_congr.
  rewrite (run_bind_pure (path_is_dir E target) _ s true); [done|].
  unfold path_is_dir.
  by rewrite (run_bind_pure (path_stat E target) _ s (Some (Dir w es)));
    [|by apply path_stat_found].
Qed.

Lemma well_formed_directive_fits E permissions :
  well_formed_directive permissions -> directive_fits E permissions.
Proof.
  intros [->|(p & m & -> & Hp & Hm)] m'; unfold directive_mode, truthy.
  - simpl. destruct (os_posix E); [|done]. by intros [= <-].
  - destruct p; [discriminate Hp|]. simpl. rewrite Hp. by intros [= <-].
Qed.

Section Result.

Variable E : env.
Variable permissions : option string.
Variable exclude_spec : option (string -> bool).
Hypothesis Hfits : directive_fits E permissions.

Lemma apply_returns q s :
  exists v, res (apply_permission_change E q permissions exclude_spec s) = Ret v.
Proof.
  rewrite apply_permission_change_outcome. unfold entry_outcome.
  destruct (excluded exclude_spec q); [by eexists|].
  destruct (directive_mode E permissions) as [m|] eqn:Hm.
  - rewrite (Hfits m) by done.
    destruct (stat E s q) as [e|n]; [by eexists|].
    destruct (euid_root E || is_owner (who_of n)); by eexists.
  - destruct (truthy permissions); by eexists.
Qed.

Lemma apply_step_returns q s :
  res ((apply_permission_change E q permissions exclude_spec;; mret tt) s)
  = Ret tt.
Proof. rewrite res_bind. by destruct (apply_returns q s) as [v ->]. Qed.

Lemma walk_body_returns top s es' dirs files :
  euid_root E = true \/ pathlib_reraises E = false ->
  readdir E s top = inr es' ->
  res (walk_body E permissions exclude_spec top dirs files s) = Ret tt.
Proof.
  intros Hok Hrd. unfold walk_body. rewrite res_bind.
  rewrite for_each_returns by (intros; apply apply_step_returns).
  set (s1 := fs_after (for_each _ files s)).
  assert (Hs1 : readdir E s1 top = inr es').
  { rewrite <- Hrd. symmetry. apply readdir_agree. intros q Hq.
    apply (for_each_frame (touched_child top)).
    - intros x s' _ q' Hq'.
      apply (local_frame _ _ _ (local_apply_child E permissions exclude_spec top x)).
      intros ->. apply Hq'. by exists x.
    - intros [name ->]. by apply prefix_snoc_not in Hq. }
  rewrite res_bind. unfold os_listdir at 1. rewrite Hs1. cbn [res fs_after].
  apply for_each_returns. intros name s' _. rewrite res_bind.
  unfold path_is_dir. rewrite run_bind.
  destruct (path_stat_returns E s' (top ++ [name]) Hok) as [n ->].
  cbn [res fs_after]. destruct n as [[]|]; try done. apply apply_step_returns.
Qed.

Lemma os_walk_returns n :
  euid_root E = true \/ pathlib_reraises E = false ->
  forall top s,
    res (os_walk E (walk_body E permissions exclude_spec) top n s) = Ret tt.
Proof.
  intros Hok. induction n as [w|w es IH] using node_induction; intros top s.
  - done.
  - simpl. destruct (readdir E s top) as [e|es'] eqn:Hrd; [done|].
    rewrite res_bind, (walk_body_returns _ _ es') by done.
    apply for_each_returns. intros [name c] s' Hin. simpl.
    destruct (is_dir_node c); [|done]. by eapply IH.
Qed.

Lemma process_path_found_returns target recursive s n :
  stat E s target = inr n ->
  (forall z, res (process_path E target permissions recursive exclude_spec s)
             = Ret z -> z = 0) /\
  (euid_root E = true \/ pathlib_reraises E = false ->
   res (process_path E target permissions recursive exclude_spec s) = Ret 0).
Proof.
  intros Hst. rewrite (process_path_found _ _ _ _ _ _ _ Hst). split.
  - intros z. rewrite res_bind.
    match goal with |- context [match ?x with _ => _ end] => destruct x end;
      simpl; congruence.
  - intros Hok. rewrite res_bind. destruct n as [w|w es].
    + by rewrite apply_step_returns.
    + rewrite res_bind. destruct (apply_returns target s) as [v ->].
      destruct recursive; [|done]. unfold for_os_walk.
      destruct (find_node (tree E) target); [|done].
      by rewrite os_walk_returns.
Qed.

End Result.

(** C1 (as amended): when the root path exists and the directive is absent
    or a string that [int(s, 8)] accepts, the result of the traversal is 0
    whenever it returns, whatever happened to the visited entries: a chmod
    that raises a filesystem error is recorded as failed and does not change
    the result.  The traversal does return when inaccessible paths are
    answered by False (or the user is privileged). *)
Theorem result_zero_whatever_the_entries E target permissions recursive exclude_spec s n :
  stat E s target = inr n ->
  well_formed_directive permissions ->
  let r := process_path E target permissions recursive exclude_spec s in
  (forall z, res r = Ret z -> z = 0) /\
  (euid_root E = true \/ pathlib_reraises E = false -> res r = Ret 0).
Proof.
  intros Hst Hdir.
  apply (process_path_found_returns E permissions exclude_spec
           (well_formed_directive_fits E permissions Hdir) target recursive s n Hst).
Qed.

Lemma result_zero_whatever_the_entries_witness :
  let r := process_path foreign_env ["d"; "f"] (Some "755") false None
             foreign_modes in
  res r = Ret 0 /\ LogFailed ["d"; "f"] EPERM ∈ trace r.
Proof.
  split.
  - apply (result_zero_whatever_the_entries foreign_env ["d"; "f"] (Some "755")
             false None foreign_modes (File Other)).
    + reflexivity.
    + right. exists "755", 493. repeat split; reflexivity.
    + right. reflexivity.
  - assert (Ht : trace (process_path foreign_env ["d"; "f"] (Some "755") false
                          None foreign_modes)
                 = [SysChmod ["d"; "f"] 493; LogFailed ["d"; "f"] EPERM])
      by (vm_compute; reflexivity).
    rewrite Ht, !elem_of_cons. auto.
Defined.

(** C1, as stated, fails: the file [/d/f] belongs to somebody else, chmod
    raises [EPERM], the entry is recorded as failed, and the result is 0. *)
Lemma failed_entry_with_result_zero :
  let r := process_path foreign_env ["d"; "f"] (Some "755") false None
             foreign_modes in
  stat foreign_env foreign_modes ["d"; "f"] = inr (File Other) /\
  ~ result_reflects_failures r.
Proof.
  split; [reflexivity|]. intros [H1 _]. apply H1; [reflexivity|].
  exists ["d"; "f"], EPERM.
  assert (Ht : trace (process_path foreign_env ["d"; "f"] (Some "755") false
                        None foreign_modes)
               = [SysChmod ["d"; "f"] 493; LogFailed ["d"; "f"] EPERM])
    by (vm_compute; reflexivity).
  rewrite Ht, !elem_of_cons. auto.
Qed.

(** C2, at the failing input: the three-character string [789] is not an
    octal number; the length check of [main] lets it through, every entry
    is answered with "invalid permission string", nothing is changed, and
    the exit status is 0. *)
Theorem unparseable_directive_exit_zero :
  let r := main demo_env (Args ["d"] (Some "789") None true) demo_modes in
  py_int8 "789" = None /\
  exit_status (res r) = 0 /\
  trace r = [LogInvalid "789"; LogInvalid "789"; LogInvalid "789";
             LogInvalid "789"] /\
  fs_after r = demo_modes.
Proof. vm_compute. repeat split; reflexivity. Qed.

(** The part of C2 that holds: a non-empty string of the wrong length stops
    [main] with status 1 before anything is called. *)
Lemma wrong_length_rejected E a s p :
  permissions a = Some p -> p <> "" ->
  String.length p <> 3%nat -> String.length p <> 4%nat ->
  exit_status (res (main E a s)) = 1 /\
  fs_after (main E a s) = s /\ chmod_targets (trace (main E a s)) = [].
Proof.
  intros Hp Hne H3 H4. unfold main.
  destruct (if truthy (exclude a) then _ else _) as [spec|]; [|done].
  unfold path_exists, path_stat. rewrite !run_bind.
  assert (Hguard : truthy (permissions a)
            && negb (bool_decide (String.length (default "" (permissions a)) = 3%nat
                                  \/ String.length (default "" (permissions a)) = 4%nat))
            = true).
  { rewrite Hp. simpl. rewrite bool_decide_eq_false_2 by done.
    rewrite bool_decide_eq_false_2 by tauto. done. }
  destruct (stat E s (target_path a)) as [[]|n]; simpl;
    try destruct (pathlib_reraises E); simpl; try done.
  all: by rewrite Hguard.
Qed.

Lemma wrong_length_rejected_example :
  let r := main demo_env (Args ["d"] (Some "77") None true) demo_modes in
  exit_status (res r) = 1 /\ fs_after r = demo_modes /\
  chmod_targets (trace r) = [].
Proof.
  apply (wrong_length_rejected demo_env (Args ["d"] (Some "77") None true)
           demo_modes "77"); done.
Qed.

(** C2 fails in general, not only at one input: a string of three or four
    characters that [int(s, 8)] rejects, on an existing root, ends with
    exit status 0 (when no error escapes the walk). *)
Lemma unparseable_directive_result_zero E a s p n :
  permissions a = Some p ->
  String.length p = 3%nat \/ String.length p = 4%nat ->
  py_int8 p = None ->
  exclude a = None ->
  stat E s (target_path a) = inr n ->
  euid_root E = true \/ pathlib_reraises E = false ->
  exit_status (res (main E a s)) = 0.
Proof.
  intros Hp Hlen Hint Hex Hst Hok. unfold main. rewrite Hex. cbn [truthy].
  rewrite (run_bind_pure (path_exists E (target_path a)) _ s true).
  2:{ unfold path_exists.
      rewrite (run_bind_pure (path_stat E (target_path a)) _ s (Some n));
        [|by apply path_stat_found].
      by rewrite run_ret, bool_decide_eq_true_2 by eauto. }
  cbn [negb]. rewrite Hp. cbn [default].
  rewrite (bool_decide_eq_true_2 _ Hlen), andb_false_r.
  assert (Hfits : directive_fits E (Some p)).
  { intros m. unfold directive_mode, truthy.
    destruct p; [by destruct Hlen|]. simpl. by rewrite Hint. }
  destruct (process_path_found_returns E (Some p) None Hfits (target_path a)
              (recursive a) s n Hst) as [_ H].
  by rewrite (H Hok).
Qed.

(** ** The exclusion pattern meets absolute paths *)

(** No path below [/d] is matched by [sub/**]: the pattern is anchored and
    the path handed to the matcher is the absolute one. *)
Lemma sub_glob_misses_below_d (rest : path) :
  match_sub_glob (path_str ("d" :: rest)) = false.
Proof. by destruct rest. Qed.

(** It matches what lies below [/sub]. *)
Lemma sub_glob_matches_below_sub :
  match_sub_glob (path_str ["sub"; "b.txt"]) = true /\
  match_sub_glob (path_str ["sub"]) = false.
Proof. by vm_compute. Qed.

(** C3 (as amended): in the scenario with the pattern [sub/**], whatever
    the permission bits of the four entries were, all four end with mode
    0755 and none is reported as skipped; the exit status is 0. *)
Theorem anchored_pattern_excludes_nothing (d a sub b : Z) :
  let r := main demo_env demo_args_excluding (demo_store d a sub b) in
  exit_status (res r) = 0 /\
  fs_after r !! ["d"] = Some 493 /\
  fs_after r !! ["d"; "a.txt"] = Some 493 /\
  fs_after r !! ["d"; "sub"] = Some 493 /\
  fs_after r !! ["d"; "sub"; "b.txt"] = Some 493 /\
  (forall q, LogSkipping q ∉ trace r).
Proof.
  assert (Ht : trace (main demo_env demo_args_excluding (demo_store d a sub b)) =
    [SysChmod ["d"] 493; LogChanged ["d"] "755";
     SysChmod ["d"; "a.txt"] 493; LogChanged ["d"; "a.txt"] "755";
     SysChmod ["d"; "sub"] 493; LogChanged ["d"; "sub"] "755";
     SysChmod ["d"; "sub"; "b.txt"] 493;
     LogChanged ["d"; "sub"; "b.txt"] "755"]) by (vm_compute; reflexivity).
  cbv zeta. rewrite Ht. split_and!; try (vm_compute; reflexivity).
  intros q Hq. rewrite !elem_of_cons, elem_of_nil in Hq.
  intuition discriminate.
Qed.

(** C3, as stated, fails in its scenario: [d/sub] does not keep its bits
    (0750 before, 0755 after) and is not reported as skipped. *)
Lemma sub_tree_is_not_excluded :
  ~ sub_tree_excluded demo_modes
      (main demo_env demo_args_excluding demo_modes).
Proof.
  intros (_ & _ & Hsub & _). vm_compute in Hsub. discriminate Hsub.
Qed.



(** ** A directory with one file *)

Ltac run_steps :=
  repeat (rewrite res_bind || rewrite fs_after_bind || rewrite run_ret);
  cbn [res fs_after].

Section OneChild.

Variable E : env.
Variable s : store.
Variable target : path.
Variable wd wf : cls.
Variable name : string.
Variable permissions : option string.
Variable m : Z.

Hypothesis Hstat : stat E s target = inr (Dir wd [(name, File wf)]).
Hypothesis Hdir_owner : euid_root E || is_owner wd = true.
Hypothesis Hfile_owner : euid_root E || is_owner wf = true.
Hypothesis Hmode : directive_mode E permissions = Some m.
Hypothesis Hfits : in_c_int m = true.

Local Abbreviation child := (target ++ [name]).
Local Abbreviation m' := (Z.land m 4095).
Local Abbreviation s1 := (<[target := m']> s).
Local Abbreviation s2 := (<[child := m']> s1).
Local Abbreviation es := [(name, File wf)].

Lemma child_ne_target : child <> target.
Proof.
  intros Heq. apply (f_equal length) in Heq. rewrite length_app in Heq.
  simpl in Heq. lia.
Qed.

Lemma one_child_apply_target :
  exists t, apply_permission_change E target permissions None s
            = Run (Ret None) s1 t.
Proof.
  rewrite apply_permission_change_outcome. unfold entry_outcome. simpl.
  rewrite Hmode, Hfits, Hstat. simpl. rewrite Hdir_owner. eauto.
Qed.

Lemma one_child_stat_s1 : stat E s1 target = inr (Dir wd es).
Proof.
  rewrite <- Hstat. apply stat_agree. intros q [_ Hne].
  by rewrite lookup_insert_ne.
Qed.

Lemma one_child_may_s1 a :
  may E s1 target wd a = euid_root E || Z.testbit m' (perm_bit wd a).
Proof. unfold may, mode_of. by rewrite lookup_insert_eq. Qed.

Lemma one_child_readdir_s1 :
  readdir E s1 target =
  if euid_root E || Z.testbit m' (perm_bit wd R) then inr es else inl EACCES.
Proof. unfold readdir. by rewrite one_child_stat_s1, one_child_may_s1. Qed.

Lemma one_child_stat_child_s1 :
  stat E s1 child =
  if euid_root E || Z.testbit m' (perm_bit wd X)
  then inr (File wf) else inl EACCES.
Proof.
  rewrite stat_snoc, one_child_stat_s1, one_child_may_s1. simpl.
  by rewrite bool_decide_eq_true_2.
Qed.

Lemma one_child_find : find_node (tree E) target = Some (Dir wd es).
Proof. by eapply stat_find. Qed.

(** Without recursion only the directory changes. *)
Lemma one_child_flat :
  res (process_path E target permissions false None s) = Ret 0 /\
  fs_after (process_path E target permissions false None s) = s1.
Proof.
  rewrite (process_path_found _ _ _ _ _ _ _ Hstat).
  destruct one_child_apply_target as [t Ht].
  run_steps. rewrite Ht. done.
Qed.

Lemma one_child_names : file_names es = [name] /\ dir_names es = [].
Proof. done. Qed.

Lemma one_child_body_open :
  stays_open E wd m' = true ->
  res (walk_body E permissions None target (dir_names es) (file_names es) s1)
  = Ret tt /\
  fs_after (walk_body E permissions None target (dir_names es) (file_names es) s1)
  = s2.
Proof.
  unfold stays_open. intros Hopen.
  assert (HR : euid_root E || Z.testbit m' (perm_bit wd R) = true).
  { destruct (euid_root E); [done|]. simpl in *.
    by apply andb_true_iff in Hopen as [-> _]. }
  assert (HX : euid_root E || Z.testbit m' (perm_bit wd X) = true).
  { destruct (euid_root E); [done|]. simpl in *.
    by apply andb_true_iff in Hopen as [_ ->]. }
  assert (Hchild : exists t, apply_permission_change E child permissions None s1
                             = Run (Ret None) s2 t).
  { rewrite apply_permission_change_outcome. unfold entry_outcome. simpl.
    rewrite Hmode, Hfits, one_child_stat_child_s1, HX. simpl.
    rewrite Hfile_owner. eauto. }
  assert (Hrd2 : readdir E s2 target = inr es).
  { rewrite <- (readdir_agree E s1 s2).
    - rewrite one_child_readdir_s1, HR. reflexivity.
    - intros q Hq. rewrite (lookup_insert_ne s1); [done|].
      intros <-. by apply prefix_snoc_not in Hq. }
  assert (Hst2 : stat E s2 child = inr (File wf)).
  { rewrite <- (stat_agree E s1 s2).
    - rewrite one_child_stat_child_s1, HX. reflexivity.
    - intros q [_ Hne]. by rewrite (lookup_insert_ne s1). }
  destruct Hchild as [t Ht]. destruct one_child_names as [-> ->].
  unfold walk_body. cbn [for_each]. run_steps. rewrite Ht. run_steps.
  unfold os_listdir. rewrite Hrd2. cbn [res fs_after fmap list_fmap fst for_each].
  run_steps. unfold path_is_dir.
  rewrite (run_bind_pure (path_stat E child) _ s2 (Some (File wf)))
    by (by apply path_stat_found).
  done.
Qed.

Lemma one_child_walk_unfold s0 :
  for_os_walk E target (walk_body E permissions None) s0 =
  match readdir E s0 target with
  | inl _ => Run (Ret tt) s0 []
  | inr _ =>
      (walk_body E permissions None target (dir_names es) (file_names es);;
       mret tt;; mret tt) s0
  end.
Proof. unfold for_os_walk. by rewrite one_child_find. Qed.

Lemma one_child_walk_open :
  stays_open E wd m' = true ->
  res (for_os_walk E target (walk_body E permissions None) s1) = Ret tt /\
  fs_after (for_os_walk E target (walk_body E permissions None) s1) = s2.
Proof.
  intros Hopen. destruct (one_child_body_open Hopen) as [Hres Hfs].
  rewrite one_child_walk_unfold, one_child_readdir_s1.
  assert (HR : euid_root E || Z.testbit m' (perm_bit wd R) = true).
  { unfold stays_open in Hopen. destruct (euid_root E); [done|]. simpl in *.
    by apply andb_true_iff in Hopen as [-> _]. }
  rewrite HR. run_steps. by rewrite Hres, Hfs.
Qed.

Lemma one_child_walk_closed :
  stays_open E wd m' = false ->
  fs_after (for_os_walk E target (walk_body E permissions None) s1) = s1.
Proof.
  unfold stays_open. intros Hclosed.
  destruct (euid_root E) eqn:Hroot; [discriminate Hclosed|]. simpl in Hclosed.
  rewrite one_child_walk_unfold.
  assert (Hrd : readdir E s1 target =
                if Z.testbit m' (perm_bit wd R) then inr es else inl EACCES).
  { by rewrite one_child_readdir_s1, Hroot. }
  rewrite Hrd.
  destruct (Z.testbit m' (perm_bit wd R)) eqn:HR; [|done].
  simpl in Hclosed.
  assert (Hst : stat E s1 child = inl EACCES).
  { by rewrite one_child_stat_child_s1, Hroot, Hclosed. }
  assert (Hchild : exists t, apply_permission_change E child permissions None s1
                             = Run (Ret None) s1 t).
  { rewrite apply_permission_change_outcome. unfold entry_outcome. simpl.
    rewrite Hmode, Hfits, Hst. eauto. }
  destruct Hchild as [t Ht]. destruct one_child_names as [-> ->].
  unfold walk_body. cbn [for_each]. run_steps. rewrite Ht. run_steps.
  unfold os_listdir. rewrite Hrd. cbn [res fs_after fmap list_fmap fst for_each].
  run_steps. unfold path_is_dir, path_stat. rewrite !run_bind, Hst.
  destruct (pathlib_reraises E); done.
Qed.

Lemma one_child_gating :
  let flat := process_path E target permissions false None s in
  let deep := process_path E target permissions true None s in
  (res flat = Ret 0 /\ fs_after flat = s1 /\ fs_after flat !! child = s !! child) /\
  (stays_open E wd m' = true -> res deep = Ret 0 /\ fs_after deep = s2) /\
  (stays_open E wd m' = false ->
     fs_after deep = s1 /\ fs_after deep !! child = s !! child).
Proof.
  assert (Hchild : s1 !! child = s !! child).
  { apply lookup_insert_ne. intros Heq. by apply child_ne_target. }
  destruct one_child_flat as [Hres Hfs]. cbv zeta.
  split; [by rewrite Hfs|].
  rewrite (process_path_found _ _ _ true _ _ _ Hstat).
  destruct one_child_apply_target as [t Ht].
  split.
  - intros Hopen. destruct (one_child_walk_open Hopen) as [Hr Hf].
    run_steps. rewrite Ht. run_steps. by rewrite Hr, Hf.
  - intros Hclosed. pose proof (one_child_walk_closed Hclosed) as Hf.
    run_steps. rewrite Ht. run_steps. rewrite Hf.
    by destruct (res (for_os_walk _ _ _ _)).
Qed.

End OneChild.

(** C7 (as amended): a directory with one file child, no exclusions, and a
    user whom the system lets change both modes.  Without recursion only
    the directory's mode changes and the child keeps its bits.  With
    recursion both change when the directory can still be listed and
    searched under its new mode (or the user is privileged); when it
    cannot, the walk reaches nothing and the child keeps its bits. *)
Theorem recursion_gating E s target wd wf name permissions m :
  stat E s target = inr (Dir wd [(name, File wf)]) ->
  euid_root E || is_owner wd = true ->
  euid_root E || is_owner wf = true ->
  directive_mode E permissions = Some m ->
  in_c_int m = true ->
  let child := target ++ [name] in
  let s1 := <[target := Z.land m 4095]> s in
  let s2 := <[child := Z.land m 4095]> s1 in
  let flat := process_path E target permissions false None s in
  let deep := process_path E target permissions true None s in
  (res flat = Ret 0 /\ fs_after flat = s1 /\ fs_after flat !! child = s !! child) /\
  (stays_open E wd (Z.land m 4095) = true -> res deep = Ret 0 /\ fs_after deep = s2) /\
  (stays_open E wd (Z.land m 4095) = false ->
     fs_after deep = s1 /\ fs_after deep !! child = s !! child).
Proof.
  intros Hst Hd Hf Hm Hfit.
  exact (one_child_gating E s target wd wf name permissions m Hst Hd Hf Hm Hfit).
Qed.

Lemma recursion_gating_witness :
  let flat := process_path single_env ["d"] (Some "755") false None single_modes in
  let deep := process_path single_env ["d"] (Some "755") true None single_modes in
  fs_after flat !! ["d"; "f"] = single_modes !! ["d"; "f"] /\
  fs_after deep = <[ ["d"; "f"] := 493 ]> (<[ ["d"] := 493 ]> single_modes).
Proof.
  destruct (recursion_gating single_env single_modes ["d"] Owner Owner "f"
              (Some "755") 493) as [(_ & _ & Hflat) [Hdeep _]];
    try reflexivity.
  split; [exact Hflat|]. by apply Hdeep.
Defined.

(** C7, as stated, fails for the default directive (remove all
    permissions) and an ordinary user: the directory's own bits are cleared
    first, the walk can then not list it, and the child keeps its bits. *)
Lemma recursion_misses_child_of_closed_directory :
  let deep := process_path single_env ["d"] None true None single_modes in
  res deep = Ret 0 /\
  fs_after deep !! ["d"] = Some 0 /\
  fs_after deep !! ["d"; "f"] = Some 420 /\
  ~ both_changed single_modes (fs_after deep) ["d"] ["d"; "f"].
Proof.
  split_and!; try (vm_compute; reflexivity).
  intros [_ H]. apply H. vm_compute. reflexivity.
Qed.

(** ** A directive that does not parse changes nothing *)

Lemma quiet_ret {A} (a : A) : quiet (mret a).
Proof. done. Qed.

Lemma quiet_bind {A B} (c : M A) (k : A -> M B) :
  quiet c -> (forall a, quiet (k a)) -> quiet (c ≫= k).
Proof.
  intros Hc Hk s. rewrite run_bind. destruct (Hc s) as [H1 H2].
  destruct (res (c s)) as [a|e]; cbn [fs_after trace]; [|done].
  destruct (Hk a (fs_after (c s))) as [H3 H4].
  rewrite chmod_targets_app, H2, H4, H3, H1. done.
Qed.

Lemma quiet_for_each {A} (f : A -> M unit) (l : list A) :
  (forall x, quiet (f x)) -> quiet (for_each f l).
Proof.
  intros Hf. induction l as [|x l IH]; [apply quiet_ret|].
  simpl. apply quiet_bind; [apply Hf|done].
Qed.

Lemma quiet_path_stat {A} E p (f : option node -> A) :
  quiet (n ← path_stat E p; mret (f n)).
Proof.
  intros s. rewrite run_bind. unfold path_stat.
  destruct (stat E s p) as [[]|]; try done; by destruct (pathlib_reraises E).
Qed.

Section Quiet.

Variable E : env.
Variable permissions : option string.
Variable exclude_spec : option (string -> bool).
Hypothesis Hnone : directive_mode E permissions = None.

Lemma quiet_apply q :
  quiet (apply_permission_change E q permissions exclude_spec).
Proof.
  intros s. rewrite apply_permission_change_outcome. unfold entry_outcome.
  rewrite Hnone. destruct (excluded exclude_spec q); [done|].
  by destruct (truthy permissions).
Qed.

Lemma quiet_walk_body top dirs files :
  quiet (walk_body E permissions exclude_spec top dirs files).
Proof.
  unfold walk_body. apply quiet_bind.
  - apply quiet_for_each. intros f.
    apply quiet_bind; [apply quiet_apply|intros; apply quiet_ret].
  - intros _. apply quiet_bind.
    + intros s. unfold os_listdir. by destruct (readdir E s top).
    + intros names. apply quiet_for_each. intros name.
      apply quiet_bind; [apply quiet_path_stat|].
      intros []; [|apply quiet_ret].
      apply quiet_bind; [apply quiet_apply|intros; apply quiet_ret].
Qed.

Lemma quiet_os_walk n top :
  quiet (os_walk E (walk_body E permissions exclude_spec) top n).
Proof.
  revert top. induction n as [w|w es IH] using node_induction; intros top.
  - apply quiet_ret.
  - intros s. simpl. destruct (readdir E s top); [done|].
    revert s. apply quiet_bind; [apply quiet_walk_body|]. intros _.
    assert (Hall : forall e, e ∈ es ->
              quiet (if is_dir_node (snd e)
                     then os_walk E (walk_body E permissions exclude_spec)
                            (top ++ [fst e]) (snd e)
                     else mret tt)).
    { intros [name c] Hin. simpl. destruct (is_dir_node c); [|apply quiet_ret].
      by eapply IH. }
    clear IH. induction es as [|e es IHes]; [apply quiet_ret|].
    simpl. apply quiet_bind; [apply Hall; left|].
    intros _. apply IHes. intros e' He'. apply Hall. by right.
Qed.

Lemma quiet_process_path target recursive :
  quiet (process_path E target permissions recursive exclude_spec).
Proof.
  unfold process_path, path_exists, path_is_file, path_is_dir.
  apply quiet_bind; [apply quiet_path_stat|]. intros ex.
  destruct (negb ex); [apply quiet_bind; [done|intros; apply quiet_ret]|].
  apply quiet_bind; [apply quiet_path_stat|]. intros f.
  apply quiet_bind; [|intros; apply quiet_ret].
  destruct f; [apply quiet_bind; [apply quiet_apply|intros; apply quiet_ret]|].
  apply quiet_bind; [apply quiet_path_stat|]. intros d.
  destruct d; [|apply quiet_ret].
  apply quiet_bind; [apply quiet_apply|]. intros _.
  destruct recursive; [|apply quiet_ret]. unfold for_os_walk.
  destruct (find_node (tree E) target); [apply quiet_os_walk|apply quiet_ret].
Qed.

End Quiet.

(** The other part of C2 that holds: a non-empty string that [int(s, 8)]
    rejects never leads to a chmod call, and every mode is left as it was. *)
Lemma unparseable_directive_changes_nothing E a s p :
  permissions a = Some p -> p <> "" -> py_int8 p = None ->
  fs_after (main E a s) = s /\ chmod_targets (trace (main E a s)) = [].
Proof.
  intros Hp Hne Hint. unfold main.
  destruct (if truthy (exclude a) then _ else _) as [spec|]; [|done].
  revert s. apply quiet_bind; [apply quiet_path_stat|]. intros ex.
  destruct (negb ex); [apply quiet_ret|].
  destruct (_ && _); [apply quiet_ret|].
  apply quiet_process_path. rewrite Hp. unfold directive_mode, truthy.
  destruct p; [done|]. simpl. by rewrite Hint.
Qed.

(** * Further properties of the program *)

(** ** Relations kept by every step *)

Section Stepwise.

Variable E : env.
Variable permissions : option string.
Variable exclude_spec : option (string -> bool).
Variable Rel : store -> store -> list event -> Prop.
Variable At : path -> Prop.

Hypothesis Rel_nil : forall s, Rel s s [].
Hypothesis Rel_app : forall s s' s'' t t',
  Rel s s' t -> Rel s' s'' t' -> Rel s s'' (t ++ t').
Hypothesis At_child : forall q name, At q -> At (q ++ [name]).
Hypothesis Rel_apply : forall q,
  At q -> stepwise Rel (apply_permission_change E q permissions exclude_spec).

Lemma stepwise_ret {A : Type} (a : A) : stepwise Rel (mret a).
Proof. intros s. apply Rel_nil. Qed.

Lemma stepwise_bind {A B : Type} (c : M A) (k : A -> M B) :
  stepwise Rel c -> (forall a, stepwise Rel (k a)) -> stepwise Rel (c ≫= k).
Proof.
  intros Hc Hk s. rewrite run_bind.
  destruct (res (c s)) as [a|e]; cbn [fs_after trace]; [|apply Hc].
  eapply Rel_app; [apply Hc|apply Hk].
Qed.

Lemma stepwise_for_each {A : Type} (f : A -> M unit) (l : list A) :
  (forall x, stepwise Rel (f x)) -> stepwise Rel (for_each f l).
Proof.
  intros Hf. induction l as [|x l IH]; [apply stepwise_ret|].
  simpl. apply stepwise_bind; [apply Hf|done].
Qed.

Lemma stepwise_path_stat {A : Type} p (f : option node -> A) :
  stepwise Rel (n ← path_stat E p; mret (f n)).
Proof.
  intros s. rewrite run_bind. unfold path_stat.
  destruct (stat E s p) as [[]|]; try apply Rel_nil;
    destruct (pathlib_reraises E); apply Rel_nil.
Qed.

Lemma stepwise_listdir p : stepwise Rel (os_listdir E p).
Proof. intros s. unfold os_listdir. destruct (readdir E s p); apply Rel_nil. Qed.

Lemma stepwise_apply_step q :
  At q ->
  stepwise Rel (apply_permission_change E q permissions exclude_spec;; mret tt).
Proof.
  intros Hq. apply stepwise_bind; [by apply Rel_apply|intros; apply stepwise_ret].
Qed.

Lemma stepwise_walk_body top dirs files :
  At top ->
  stepwise Rel (walk_body E permissions exclude_spec top dirs files).
Proof.
  intros Htop. unfold walk_body. apply stepwise_bind.
  - apply stepwise_for_each. intros f. by apply stepwise_apply_step, At_child.
  - intros _. apply stepwise_bind; [apply stepwise_listdir|].
    intros names. apply stepwise_for_each. intros name.
    apply stepwise_bind; [apply stepwise_path_stat|].
    intros []; [by apply stepwise_apply_step, At_child|apply stepwise_ret].
Qed.

Lemma stepwise_os_walk n top :
  At top ->
  stepwise Rel (os_walk E (walk_body E permissions exclude_spec) top n).
Proof.
  revert top. induction n as [w|w es IH] using node_induction; intros top Htop.
  - apply stepwise_ret.
  - intros s. simpl. destruct (readdir E s top); [apply Rel_nil|].
    revert s. apply stepwise_bind; [by apply stepwise_walk_body|]. intros _.
    assert (Hall : forall e, e ∈ es ->
              stepwise Rel
                (if is_dir_node (snd e)
                 then os_walk E (walk_body E permissions exclude_spec)
                        (top ++ [fst e]) (snd e)
                 else mret tt)).
    { intros [name c] Hin. simpl.
      destruct (is_dir_node c); [|apply stepwise_ret].
      eapply IH; [done|by apply At_child]. }
    clear IH. induction es as [|e es IHes]; [apply stepwise_ret|].
    simpl. apply stepwise_bind; [apply Hall; left|].
    intros _. apply IHes. intros e' He'. apply Hall. by right.
Qed.

Lemma stepwise_process_path target recursive :
  At target ->
  (forall s, Rel s s [LogMissing target]) ->
  stepwise Rel (process_path E target permissions recursive exclude_spec).
Proof.
  intros Htarget Hmissing.
  unfold process_path, path_exists, path_is_file, path_is_dir.
  apply stepwise_bind; [apply stepwise_path_stat|]. intros ex.
  destruct (negb ex).
  { apply stepwise_bind; [exact Hmissing|intros; apply stepwise_ret]. }
  apply stepwise_bind; [apply stepwise_path_stat|]. intros f.
  apply stepwise_bind; [|intros; apply stepwise_ret].
  destruct f; [by apply stepwise_apply_step|].
  apply stepwise_bind; [apply stepwise_path_stat|]. intros d.
  destruct d; [|apply stepwise_ret].
  apply stepwise_bind; [by apply Rel_apply|]. intros _.
  destruct recursive; [|apply stepwise_ret]. unfold for_os_walk.
  destruct (find_node (tree E) target);
    [by apply stepwise_os_walk|apply stepwise_ret].
Qed.

End Stepwise.

(** A relation that contains the empty step, is closed under sequencing and
    holds of [apply_permission_change] on every path at or below the target
    ([At]) and of the records [main] writes itself holds of the whole run. *)
Lemma stepwise_main (E : env) (a : args)
    (Rel : store -> store -> list event -> Prop) (At : path -> Prop) :
  (forall s, Rel s s []) ->
  (forall s s' s'' t t', Rel s s' t -> Rel s' s'' t' -> Rel s s'' (t ++ t')) ->
  (forall q name, At q -> At (q ++ [name])) ->
  At (target_path a) ->
  (forall spec q,
     At q -> stepwise Rel (apply_permission_change E q (permissions a) spec)) ->
  (forall s e, notice e = true -> Rel s s [e]) ->
  stepwise Rel (main E a).
Proof.
  intros Hnil Happ Hchild Hat Happly Hlog. unfold main.
  destruct (if truthy (exclude a) then _ else _) as [spec|].
  - apply (stepwise_bind Rel Happ); [apply (stepwise_path_stat E Rel Hnil)|].
    intros ex. destruct (negb ex); [apply (stepwise_ret Rel Hnil)|].
    destruct (_ && _); [apply (stepwise_ret Rel Hnil)|].
    apply (stepwise_process_path E _ _ Rel At Hnil Happ Hchild (Happly spec));
      [done|].
    intros s. by apply Hlog.
  - apply (stepwise_bind Rel Happ); [|intros; apply (stepwise_ret Rel Hnil)].
    intros s. by apply Hlog.
Qed.

(** ** What a run writes, and what it reports *)

Lemma keeps_or_sets_apply E q permissions exclude_spec m :
  directive_mode E permissions = Some m ->
  stepwise (fun s s' _ => keeps_or_sets (Z.land m 4095) s s')
    (apply_permission_change E q permissions exclude_spec).
Proof.
  intros Hm s x. rewrite apply_permission_change_outcome. unfold entry_outcome.
  destruct (excluded exclude_spec q); [by left|]. rewrite Hm.
  destruct (in_c_int m); [|by left].
  destruct (stat E s q) as [e|n]; [by left|].
  destruct (euid_root E || is_owner (who_of n)); [|by left].
  cbn [fs_after]. destruct (decide (x = q)) as [->|Hne].
  - right. by rewrite lookup_insert_eq.
  - left. by rewrite lookup_insert_ne.
Qed.

Lemma keeps_or_sets_trans v s s' s'' :
  keeps_or_sets v s s' -> keeps_or_sets v s' s'' -> keeps_or_sets v s s''.
Proof.
  intros H1 H2 q. destruct (H2 q) as [->| ->]; [apply H1|by right].
Qed.

(** X1: whatever a run changes, it changes to the one mode of the directive:
    after [process_path] or [main] every path holds either the bits it had
    or exactly the twelve permission bits of the directive's mode. *)
Theorem run_writes_only_the_directive_mode (E : env) (a : args) (s : store) m :
  directive_mode E (permissions a) = Some m ->
  0 <= Z.land m 4095 < 4096 /\
  keeps_or_sets (Z.land m 4095) s (fs_after (main E a s)) /\
  (forall exclude_spec,
     keeps_or_sets (Z.land m 4095) s
       (fs_after (process_path E (target_path a) (permissions a) (recursive a)
                    exclude_spec s))).
Proof.
  intros Hm. split; [|split].
  - change 4095 with (Z.ones 12). rewrite Z.land_ones by lia.
    apply Z.mod_pos_bound. lia.
  - apply (stepwise_main E a (fun s s' _ => keeps_or_sets (Z.land m 4095) s s')
             (fun _ => True)); [|
             |done|done| |].
    + by left.
    + intros. by eapply keeps_or_sets_trans.
    + intros spec q _. by apply keeps_or_sets_apply.
    + by left.
  - intros spec.
    apply (stepwise_process_path E _ spec
             (fun s s' _ => keeps_or_sets (Z.land m 4095) s s')
             (fun _ => True)); [| |done| |done|].
    + by left.
    + intros. by eapply keeps_or_sets_trans.
    + intros q _. by apply keeps_or_sets_apply.
    + by left.
Qed.

Lemma run_writes_only_the_directive_mode_witness :
  keeps_or_sets (Z.land 493 4095) demo_modes
    (fs_after (main demo_env (Args ["d"] (Some "755") None true) demo_modes)).
Proof.
  assert (Hm : directive_mode demo_env
                 (permissions (Args ["d"] (Some "755") None true)) = Some 493)
    by (vm_compute; reflexivity).
  pose proof (run_writes_only_the_directive_mode demo_env
           (Args ["d"] (Some "755") None true) demo_modes 493 Hm) as (_ & H & _).
  exact H.
Defined.





Lemma accounted_app t t' :
  accounted t = true -> accounted t' = true -> accounted (t ++ t') = true.
Proof.
  revert t'. induction t as [t IH] using (induction_ltof1 _ length).
  unfold ltof in IH. intros t' Ht Ht'.
  destruct t as [|e t1]; [done|].
  destruct e; simpl in *; try discriminate Ht;
    try (apply IH; [simpl; lia|done|done]).
  destruct t1 as [|r t2]; [discriminate Ht|].
  apply andb_true_iff in Ht as [Hr Ht]. simpl. rewrite Hr. simpl.
  apply IH; [simpl; lia|done|done].
Qed.

(** X3: the trace of every run pairs calls and records: each chmod call is
    followed at once by the record of its outcome for the same path
    (changed, removed, or failed with the error), and no such record
    appears without its call. *)
Theorem every_chmod_call_is_accounted_for (E : env) (a : args) (s : store) :
  accounted (trace (main E a s)) = true /\
  (forall exclude_spec,
     accounted (trace (process_path E (target_path a) (permissions a)
                         (recursive a) exclude_spec s)) = true).
Proof.
  assert (Happly : forall spec q,
    stepwise (fun _ _ t => accounted t = true)
      (apply_permission_change E q (permissions a) spec)).
  { intros spec q s0. rewrite apply_permission_change_outcome.
    unfold entry_outcome, applied_record.
    destruct (excluded spec q); [done|].
    destruct (directive_mode E (permissions a)) as [m|];
      [|by destruct (truthy (permissions a))].
    destruct (in_c_int m); [|done].
    destruct (stat E s0 q) as [e|n];
      [simpl; by rewrite bool_decide_eq_true_2|].
    destruct (euid_root E || is_owner (who_of n)); simpl;
      [|by rewrite bool_decide_eq_true_2].
    destruct (truthy (permissions a)); simpl;
      by rewrite bool_decide_eq_true_2. }
  split.
  - apply (stepwise_main E a (fun _ _ t => accounted t = true)
             (fun _ => True)); [done| |done|done| |].
    + intros. by apply accounted_app.
    + intros spec q _. apply Happly.
    + intros s0 e He. by destruct e.
  - intros spec.
    apply (stepwise_process_path E _ spec (fun _ _ t => accounted t = true)
             (fun _ => True)); [done| |done| |done|done].
    + intros. by apply accounted_app.
    + intros q _. apply Happly.
Qed.



(** ** The target: missing, a file, or a directory without recursion *)

Lemma stat_never_EPERM (E : env) (s : store) (p : path) : stat E s p <> inl EPERM.
Proof. intros H. by apply resolve_errors in H as [H _]. Qed.

(** X5: a target that cannot be found makes [process_path] return 1 with the
    single record "target path does not exist"; nothing is called and
    nothing changes.  A target the user may not reach counts as missing
    where pathlib answers False for it; where pathlib re-raises, the
    permission error escapes [process_path] instead. *)
Theorem missing_target_is_reported (E : env) (target : path)
    (permissions : option string) (recursive : bool)
    (exclude_spec : option (string -> bool)) (s : store) (e : errno) :
  stat E s target = inl e ->
  process_path E target permissions recursive exclude_spec s =
  match e with
  | EACCES =>
      if pathlib_reraises E then Run (Raise (OSError EACCES)) s []
      else Run (Ret 1) s [LogMissing target]
  | _ => Run (Ret 1) s [LogMissing target]
  end.
Proof.
  intros Hst. unfold process_path, path_exists, path_stat.
  rewrite !run_bind, Hst.
  destruct e; try done.
  - by destruct (pathlib_reraises E).
  - by apply stat_never_EPERM in Hst.
Qed.

Lemma missing_target_is_reported_witness :
  process_path demo_env ["d"; "nope"] (Some "755") true None demo_modes
  = Run (Ret 1) demo_modes [LogMissing ["d"; "nope"]].
Proof.
  apply (missing_target_is_reported demo_env ["d"; "nope"] (Some "755") true
           None demo_modes ENOENT).
  reflexivity.
Defined.

Lemma process_path_found_zero (E : env) (target : path)
    (permissions : option string) (recursive : bool)
    (exclude_spec : option (string -> bool)) (s : store) (n : node) (z : Z) :
  stat E s target = inr n ->
  res (process_path E target permissions recursive exclude_spec s) = Ret z ->
  z = 0.
Proof.
  intros Hst. rewrite (process_path_found _ _ _ _ _ _ _ Hst), res_bind.
  match goal with |- context [match ?x with _ => _ end] => destruct x end;
    simpl; congruence.
Qed.

Lemma path_exists_found (E : env) (s : store) (p : path) (n : node) :
  stat E s p = inr n -> path_exists E p s = Run (Ret true) s [].
Proof.
  intros Hst. unfold path_exists.
  rewrite (run_bind_pure (path_stat E p) _ s (Some n));
    [|by apply path_stat_found].
  by rewrite run_ret, bool_decide_eq_true_2 by eauto.
Qed.

(** [main] either stops before the traversal, with nothing called and a
    result that is not 0, or is the traversal of a target that was found. *)
Lemma main_cases (E : env) (a : args) (s : store) :
  (fs_after (main E a s) = s /\ chmod_targets (trace (main E a s)) = [] /\
   res (main E a s) <> Ret 0) \/
  (exists spec n,
     stat E s (target_path a) = inr n /\
     main E a s
     = process_path E (target_path a) (permissions a) (recursive a) spec s).
Proof.
  unfold main.
  destruct (if truthy (exclude a) then _ else _) as [spec|]; [|by left].
  destruct (stat E s (target_path a)) as [e|n] eqn:Hst.
  - left. unfold path_exists, path_stat. rewrite !run_bind, Hst.
    destruct e; simpl; try done; destruct (pathlib_reraises E); done.
  - rewrite (run_bind_pure (path_exists E (target_path a)) _ s true)
      by (by eapply path_exists_found).
    cbn [negb]. destruct (_ && _); [by left|]. right. by exists spec, n.
Qed.

(** X6: fatal before mutation: when [main] returns a value other than 0
    (bad exclusion pattern, missing target, permission string of the wrong
    length) no mode has been changed and chmod has not been called. *)
Theorem nonzero_return_means_untouched (E : env) (a : args) (s : store) (z : Z) :
  res (main E a s) = Ret z -> z <> 0 ->
  fs_after (main E a s) = s /\ chmod_targets (trace (main E a s)) = [].
Proof.
  intros Hres Hz.
  destruct (main_cases E a s) as [(Hs & Ht & _)|(spec & n & Hst & Heq)]; [done|].
  rewrite Heq in Hres.
  by apply process_path_found_zero with (n := n) in Hres.
Qed.

Lemma nonzero_return_means_untouched_witness :
  fs_after (main demo_env (Args ["d"] (Some "0o755") None true) demo_modes)
  = demo_modes.
Proof.
  apply (nonzero_return_means_untouched demo_env
           (Args ["d"] (Some "0o755") None true) demo_modes 1);
    [reflexivity|discriminate].
Defined.

Lemma process_path_absent (E : env) (target : path)
    (permissions : option string) (recursive : bool)
    (exclude_spec : option (string -> bool)) (s : store) (e : errno) :
  stat E s target = inl e ->
  fs_after (process_path E target permissions recursive exclude_spec s) = s /\
  chmod_targets (trace (process_path E target permissions recursive
                          exclude_spec s)) = [].
Proof.
  intros Hst. unfold process_path, path_exists, path_stat.
  rewrite !run_bind, Hst.
  destruct e; simpl; try done; destruct (pathlib_reraises E); done.
Qed.

Lemma apply_touches_one (E : env) (q : path) (permissions : option string)
    (exclude_spec : option (string -> bool)) (s : store) :
  let r := apply_permission_change E q permissions exclude_spec s in
  (forall x, x <> q -> fs_after r !! x = s !! x) /\
  (chmod_targets (trace r) = [] \/ chmod_targets (trace r) = [q]).
Proof.
  cbv zeta. rewrite apply_permission_change_outcome.
  unfold entry_outcome, applied_record.
  destruct (excluded exclude_spec q); [by split; [|left]|].
  destruct (directive_mode E permissions) as [m|];
    [|destruct (truthy permissions); by split; [|left]].
  destruct (in_c_int m); [|by split; [|left]].
  destruct (stat E s q) as [e|n]; [by split; [|right]|].
  destruct (euid_root E || is_owner (who_of n)); [|by split; [|right]].
  cbn [fs_after trace]. split.
  - intros x Hx. by rewrite lookup_insert_ne.
  - right. by destruct (truthy permissions).
Qed.

(** X7: without the recursive flag the traversal is confined to the target
    itself, whatever the target holds: no other path changes, and chmod is
    called at most once, on the target. *)
Theorem flat_run_touches_only_the_target (E : env) (target : path)
    (permissions : option string) (exclude_spec : option (string -> bool))
    (s : store) :
  let r := process_path E target permissions false exclude_spec s in
  (forall q, q <> target -> fs_after r !! q = s !! q) /\
  (chmod_targets (trace r) = [] \/ chmod_targets (trace r) = [target]).
Proof.
  cbv zeta. destruct (stat E s target) as [e|n] eqn:Hst.
  - destruct (process_path_absent E target permissions false exclude_spec s e Hst)
      as [-> ->]. by split; [|left].
  - rewrite (process_path_found _ _ _ _ _ _ _ Hst).
    pose proof (apply_touches_one E target permissions exclude_spec s) as [Hf Ht].
    assert (Heq : forall c : M unit, (forall s0, c s0 = Run (Ret tt) s0 []) ->
      fs_after (((apply_permission_change E target permissions exclude_spec;; c);;
                 mret 0) s)
      = fs_after (apply_permission_change E target permissions exclude_spec s) /\
      chmod_targets
        (trace (((apply_permission_change E target permissions exclude_spec;; c);;
                 mret 0) s))
      = chmod_targets
          (trace (apply_permission_change E target permissions exclude_spec s))).
    { intros c Hc. rewrite !run_bind.
      destruct (res (apply_permission_change E target permissions exclude_spec s));
        cbn [res fs_after trace]; [|done].
      rewrite Hc. cbn [res fs_after trace]. by rewrite !app_nil_r. }
    destruct n as [w|w es]; destruct (Heq (mret tt)) as [-> ->]; done.
Qed.

(** X8: for a target that is a regular file the recursive flag makes no
    difference: the run is one call of [apply_permission_change] on the
    file followed by [return 0]. *)
Theorem file_target_ignores_recursion (E : env) (target : path)
    (permissions : option string) (exclude_spec : option (string -> bool))
    (s : store) (w : cls) :
  stat E s target = inr (File w) ->
  process_path E target permissions true exclude_spec s
  = process_path E target permissions false exclude_spec s /\
  fs_after (process_path E target permissions true exclude_spec s)
  = fs_after (apply_permission_change E target permissions exclude_spec s) /\
  trace (process_path E target permissions true exclude_spec s)
  = trace (apply_permission_change E target permissions exclude_spec s).
Proof.
  intros Hst. rewrite !(process_path_found _ _ _ _ _ _ _ Hst). split; [done|].
  rewrite !run_bind.
  destruct (res (apply_permission_change E target permissions exclude_spec s));
    cbn [res fs_after trace]; by rewrite ?app_nil_r.
Qed.

Lemma file_target_ignores_recursion_witness :
  process_path demo_env ["d"; "a.txt"] (Some "600") true None demo_modes
  = process_path demo_env ["d"; "a.txt"] (Some "600") false None demo_modes.
Proof.
  apply (file_target_ignores_recursion demo_env ["d"; "a.txt"] (Some "600")
           None demo_modes Owner).
  reflexivity.
Defined.

(** X9: where [os.name] is not [posix], a run without a permission string
    (or with the empty one) changes no mode, calls chmod nowhere and records
    no failure: every entry it visits is answered with the warning. *)
Theorem no_posix_no_change (E : env) (a : args) (s : store) :
  os_posix E = false -> truthy (permissions a) = false ->
  fs_after (main E a s) = s /\
  chmod_targets (trace (main E a s)) = [] /\
  ~ failed_entry (trace (main E a s)).
Proof.
  intros Hposix Hp.
  apply (stepwise_main E a
           (fun s s' t => s' = s /\ chmod_targets t = [] /\ ~ failed_entry t)
           (fun _ => True)); [| |done|done| |].
  - intros s0. split_and!; [done..|]. intros (p & e & H).
    by apply not_elem_of_nil in H.
  - intros s0 s1 s2 t t' (-> & H1 & F1) (-> & H2 & F2).
    split_and!; [done|by rewrite chmod_targets_app, H1, H2|].
    intros (p & e & [H|H]%elem_of_app); [apply F1|apply F2]; by exists p, e.
  - intros spec q _ s0. rewrite apply_permission_change_outcome.
    unfold entry_outcome, directive_mode. rewrite Hp, Hposix.
    destruct (excluded spec q); (split_and!; [done..|]);
      intros (p & e & H); apply list_elem_of_singleton in H; discriminate H.
  - intros s0 e He. split_and!; [done|by destruct e|].
    intros (p & e' & H). apply list_elem_of_singleton in H. by subst e.
Qed.

Lemma no_posix_no_change_witness :
  fs_after (main demo_env_nt (Args ["d"] None None true) demo_modes)
  = demo_modes.
Proof.
  apply (no_posix_no_change demo_env_nt (Args ["d"] None None true) demo_modes);
    reflexivity.
Defined.

(** X14: a permission string that [int(s, 8)] rejects makes the run inert:
    no mode changes, chmod is called nowhere, and the trace holds nothing
    but "invalid permission string" records for that string, "skipping"
    records of excluded paths and the notices of [main]. *)
Theorem rejected_string_is_inert (E : env) (a : args) (s : store) (p : string) :
  permissions a = Some p -> p <> "" -> py_int8 p = None ->
  fs_after (main E a s) = s /\
  chmod_targets (trace (main E a s)) = [] /\
  forallb (inert_record p) (trace (main E a s)) = true.
Proof.
  intros Hp Hne Hint.
  assert (Htruthy : truthy (permissions a) = true).
  { rewrite Hp. simpl. by rewrite bool_decide_eq_false_2. }
  apply (stepwise_main E a
           (fun s s' t => s' = s /\ chmod_targets t = [] /\
                          forallb (inert_record p) t = true)
           (fun _ => True)); [done| |done|done| |].
  - intros s0 s1 s2 t t' (-> & H1 & F1) (-> & H2 & F2).
    split_and!; [done|by rewrite chmod_targets_app, H1, H2|].
    by rewrite forallb_app, F1, F2.
  - intros spec q _ s0. rewrite apply_permission_change_outcome.
    unfold entry_outcome, directive_mode. rewrite Htruthy, Hp. cbn [default from_option id].
    rewrite Hint. destruct (excluded spec q); (split_and!; [done..|]); simpl;
      by rewrite ?bool_decide_eq_true_2.
  - intros s0 e He. split_and!; [done|by destruct e|]. simpl.
    destruct e; try done.
Qed.

Lemma rejected_string_is_inert_witness :
  fs_after (main demo_env (Args ["d"] (Some "789") None true) demo_modes)
  = demo_modes.
Proof.
  apply (rejected_string_is_inert demo_env (Args ["d"] (Some "789") None true)
           demo_modes "789"); [reflexivity|discriminate|reflexivity].
Defined.

(** ** The reach of a run *)



Lemma os_walk_Dir (E : env)
    (body : path -> list string -> list string -> M unit) (top : path) (w : cls)
    (es : list (string * node)) (s : store) :
  os_walk E body top (Dir w es) s =
  match readdir E s top with
  | inl _ => Run (Ret tt) s []
  | inr _ =>
      (body top (dir_names es) (file_names es);;
       for_each (fun e => if is_dir_node (snd e)
                          then os_walk E body (top ++ [fst e]) (snd e)
                          else mret tt) es) s
  end.
Proof. reflexivity. Qed.

(** X11: a mode that takes the owner's read permission away ends the walk at
    the target: for an ordinary user who owns the target directory, the
    recursive run is the run without the flag, because [os.walk] cannot list
    the directory once its mode has been changed and says nothing about
    it. *)
Theorem unreadable_mode_ends_the_walk (E : env) (target : path)
    (permissions : option string) (exclude_spec : option (string -> bool))
    (s : store) (es : list (string * node)) (m : Z) :
  euid_root E = false ->
  stat E s target = inr (Dir Owner es) ->
  excluded exclude_spec target = false ->
  directive_mode E permissions = Some m ->
  in_c_int m = true ->
  Z.testbit m 8 = false ->
  process_path E target permissions true exclude_spec s
  = process_path E target permissions false exclude_spec s.
Proof.
  intros Hroot Hst Hex Hm Hint Hbit.
  rewrite !(process_path_found _ _ _ _ _ _ _ Hst).
  apply run_bind_congr. rewrite !run_bind.
  rewrite apply_permission_change_outcome. unfold entry_outcome.
  rewrite Hex, Hm, Hint, Hst, Hroot. cbn [orb who_of is_owner res fs_after trace].
  unfold for_os_walk. rewrite (stat_find _ _ _ _ Hst), os_walk_Dir.
  set (s1 := <[target := Z.land m 4095]> s).
  assert (Hrd : readdir E s1 target = inl EACCES); [|by rewrite Hrd].
  unfold readdir.
  rewrite <- (stat_agree E s s1 target), Hst.
  - unfold may, mode_of, s1. rewrite Hroot, lookup_insert_eq.
    cbn [orb default id]. change (perm_bit Owner R) with 8.
    by rewrite Z.land_spec, Hbit.
  - intros k [_ Hk]. unfold s1. by rewrite lookup_insert_ne.
Qed.

Lemma unreadable_mode_ends_the_walk_witness :
  process_path demo_env ["d"] None true None demo_modes
  = process_path demo_env ["d"] None false None demo_modes.
Proof.
  apply (unreadable_mode_ends_the_walk demo_env ["d"] None None demo_modes
           [("a.txt", File Owner);
            ("sub", Dir Owner [("b.txt", File Owner)])] 0);
    reflexivity.
Defined.

(** ** What is settled stays settled *)

Lemma settled_bind_l {A B : Type} (v : Z) (q : path) (c : M A) (k : A -> M B)
    (s : store) :
  settled v q (c s) ->
  (forall a, stepwise (fun s s' _ => keeps_or_sets v s s') (k a)) ->
  settled v q ((c ≫= k) s).
Proof.
  intros [Hv Hin] Hk. rewrite run_bind.
  destruct (res (c s)) as [a|e]; [|done]. split; cbn [fs_after trace].
  - destruct (Hk a (fs_after (c s)) q) as [-> | ->]; done.
  - rewrite chmod_targets_app. apply elem_of_app. by left.
Qed.

Lemma settled_bind_r {A B : Type} (v : Z) (q : path) (c : M A) (k : A -> M B)
    (s : store) (a : A) :
  res (c s) = Ret a -> settled v q (k a (fs_after (c s))) ->
  settled v q ((c ≫= k) s).
Proof.
  intros Hres [Hv Hin]. rewrite run_bind, Hres. split; cbn [fs_after trace].
  - done.
  - rewrite chmod_targets_app. apply elem_of_app. by right.
Qed.

Lemma keeps_or_sets_refl (v : Z) (s : store) : keeps_or_sets v s s.
Proof. by left. Qed.

Lemma keeps_ret {A : Type} (v : Z) (a : A) :
  stepwise (fun s s' _ => keeps_or_sets v s s') (mret a : M A).
Proof. intros s. apply keeps_or_sets_refl. Qed.

Lemma keeps_bind {A B : Type} (v : Z) (c : M A) (k : A -> M B) :
  stepwise (fun s s' _ => keeps_or_sets v s s') c ->
  (forall a, stepwise (fun s s' _ => keeps_or_sets v s s') (k a)) ->
  stepwise (fun s s' _ => keeps_or_sets v s s') (c ≫= k).
Proof.
  apply (stepwise_bind (fun s s' _ => keeps_or_sets v s s')).
  intros. by eapply keeps_or_sets_trans.
Qed.

Lemma keeps_for_each {A : Type} (v : Z) (f : A -> M unit) (l : list A) :
  (forall x, stepwise (fun s s' _ => keeps_or_sets v s s') (f x)) ->
  stepwise (fun s s' _ => keeps_or_sets v s s') (for_each f l).
Proof.
  apply (stepwise_for_each (fun s s' _ => keeps_or_sets v s s')).
  - intros. apply keeps_or_sets_refl.
  - intros. by eapply keeps_or_sets_trans.
Qed.

Lemma settled_for_each {A : Type} (v : Z) (q : path) (f : A -> M unit)
    (l : list A) (x : A) :
  x ∈ l ->
  (forall y s, res (f y s) = Ret tt) ->
  (forall y, stepwise (fun s s' _ => keeps_or_sets v s s') (f y)) ->
  (forall s, settled v q (f x s)) ->
  forall s, settled v q (for_each f l s).
Proof.
  intros Hx Hret Hkeep Hset.
  induction l as [|y l IH]; [by apply not_elem_of_nil in Hx|].
  intros s. change (for_each f (y :: l)) with (f y;; for_each f l).
  apply elem_of_cons in Hx as [<-|Hx].
  - apply settled_bind_l; [apply Hset|]. intros _. by apply keeps_for_each.
  - apply settled_bind_r with (a := tt); [apply Hret|]. by apply IH.
Qed.

(** ** A privileged run reaches every entry *)

Section Reach.

Variable E : env.
Variable permissions : option string.
Variable exclude_spec : option (string -> bool).
Variable m : Z.

Hypothesis Hroot : euid_root E = true.
Hypothesis Hm : directive_mode E permissions = Some m.
Hypothesis Hint : in_c_int m = true.

Lemma reach_fits : directive_fits E permissions.
Proof. intros m' Hm'. congruence. Qed.

Lemma root_resolve (s : store) (n : node) (here rest : path) (c : node) :
  find_node n rest = Some c -> resolve E s n here rest = inr c.
Proof.
  revert n here. induction rest as [|name rest IH]; simpl; intros n here H.
  - congruence.
  - destruct n as [|w es]; [done|]. unfold may. rewrite Hroot. simpl.
    destruct (lookup_entry name es); [|done]. by apply IH.
Qed.

Lemma root_stat (s : store) (q : path) (c : node) :
  find_node (tree E) q = Some c -> stat E s q = inr c.
Proof. apply root_resolve. Qed.

Lemma root_readdir (s : store) (top : path) (w : cls)
    (es : list (string * node)) :
  find_node (tree E) top = Some (Dir w es) -> readdir E s top = inr es.
Proof.
  intros Hf. unfold readdir, may. by rewrite (root_stat s top _ Hf), Hroot.
Qed.

Lemma keeps_apply_step (q : path) :
  stepwise (fun s s' _ => keeps_or_sets (Z.land m 4095) s s')
    (apply_permission_change E q permissions exclude_spec;; mret tt).
Proof.
  apply keeps_bind; [by apply keeps_or_sets_apply|]. intros _. apply keeps_ret.
Qed.

Lemma keeps_dir_step (top : path) (name : string) :
  stepwise (fun s s' _ => keeps_or_sets (Z.land m 4095) s s')
    (d ← path_is_dir E (top ++ [name]);
     if d : bool
     then apply_permission_change E (top ++ [name]) permissions exclude_spec;;
          mret tt
     else mret tt).
Proof.
  apply keeps_bind.
  - apply (stepwise_path_stat E (fun s s' _ => keeps_or_sets (Z.land m 4095) s s')).
    intros. apply keeps_or_sets_refl.
  - intros []; [apply keeps_apply_step|apply keeps_ret].
Qed.

Lemma keeps_os_walk (n : node) (top : path) :
  stepwise (fun s s' _ => keeps_or_sets (Z.land m 4095) s s')
    (os_walk E (walk_body E permissions exclude_spec) top n).
Proof.
  apply (stepwise_os_walk E permissions exclude_spec
           (fun s s' _ => keeps_or_sets (Z.land m 4095) s s') (fun _ => True));
    [intros; apply keeps_or_sets_refl
    |intros; by eapply keeps_or_sets_trans
    |done
    |intros; by apply keeps_or_sets_apply
    |done].
Qed.

Lemma keeps_walk_step (top : path) (e : string * node) :
  stepwise (fun s s' _ => keeps_or_sets (Z.land m 4095) s s')
    (if is_dir_node (snd e)
     then os_walk E (walk_body E permissions exclude_spec) (top ++ [fst e]) (snd e)
     else mret tt).
Proof. destruct (is_dir_node (snd e)); [apply keeps_os_walk|apply keeps_ret]. Qed.

Lemma apply_settles (s : store) (q : path) (c : node) :
  find_node (tree E) q = Some c -> excluded exclude_spec q = false ->
  settled (Z.land m 4095) q
    (apply_permission_change E q permissions exclude_spec s).
Proof.
  intros Hf Hex. rewrite apply_permission_change_outcome. unfold entry_outcome.
  rewrite Hex, Hm, Hint, (root_stat s q c Hf), Hroot. split; cbn.
  - by rewrite lookup_insert_eq.
  - left.
Qed.

Lemma apply_step_settles (s : store) (q : path) (c : node) :
  find_node (tree E) q = Some c -> excluded exclude_spec q = false ->
  settled (Z.land m 4095) q
    ((apply_permission_change E q permissions exclude_spec;; mret tt) s).
Proof.
  intros Hf Hex. apply settled_bind_l; [by eapply apply_settles|].
  intros _. apply keeps_ret.
Qed.

Lemma dir_step_returns (top : path) (name : string) (s : store) :
  res ((d ← path_is_dir E (top ++ [name]);
        if d : bool
        then apply_permission_change E (top ++ [name]) permissions exclude_spec;;
             mret tt
        else mret tt) s) = Ret tt.
Proof.
  unfold path_is_dir.
  destruct (path_stat_returns E s (top ++ [name])) as [n Hn]; [by left|].
  rewrite res_bind, res_bind, Hn. cbn [res fs_after].
  destruct n as [[|]|]; [done| |done].
  apply apply_step_returns, reach_fits.
Qed.

(** The body of the walk for [top] settles every entry of [top]. *)
Lemma walk_body_settles (top : path) (w : cls) (es : list (string * node))
    (name : string) (c : node) (s : store) :
  find_node (tree E) top = Some (Dir w es) ->
  lookup_entry name es = Some c ->
  excluded exclude_spec (top ++ [name]) = false ->
  settled (Z.land m 4095) (top ++ [name])
    (walk_body E permissions exclude_spec top (dir_names es) (file_names es) s).
Proof.
  intros Hf Hl Hex.
  assert (Hc : find_node (tree E) (top ++ [name]) = Some c)
    by (by rewrite find_node_snoc, Hf).
  pose proof (lookup_entry_Some _ _ _ Hl) as Hin.
  unfold walk_body. destruct (is_dir_node c) eqn:Hd.
  - apply settled_bind_r with (a := tt).
    { apply for_each_returns. intros; apply apply_step_returns, reach_fits. }
    apply settled_bind_r with (a := fst <$> es).
    { unfold os_listdir. by rewrite (root_readdir _ top w es Hf). }
    apply settled_for_each with (x := name).
    + apply list_elem_of_fmap. by exists (name, c).
    + intros y s'. apply dir_step_returns.
    + intros y. apply keeps_dir_step.
    + intros s'. unfold path_is_dir.
      rewrite (run_bind_pure (path_stat E (top ++ [name]) ≫= _) _ s' true).
      * by eapply apply_step_settles.
      * rewrite (run_bind_pure (path_stat E (top ++ [name])) _ s' (Some c))
          by (by apply path_stat_found, root_stat).
        by destruct c.
  - apply settled_bind_l.
    + apply settled_for_each with (x := name).
      * unfold file_names. apply list_elem_of_fmap. exists (name, c).
        split; [done|]. by apply list_elem_of_filter.
      * intros; apply apply_step_returns, reach_fits.
      * intros y. apply keeps_apply_step.
      * intros s'. by eapply apply_step_settles.
    + intros _. apply keeps_bind.
      * apply (stepwise_listdir E
                 (fun s s' _ => keeps_or_sets (Z.land m 4095) s s')).
        intros. apply keeps_or_sets_refl.
      * intros names. apply keeps_for_each. intros y. apply keeps_dir_step.
Qed.

(** The walk from [top] settles everything below [top]. *)
Lemma os_walk_settles (rest : path) :
  forall (top : path) (n c : node) (s : store),
    rest <> [] ->
    find_node (tree E) top = Some n -> find_node n rest = Some c ->
    excluded exclude_spec (top ++ rest) = false ->
    settled (Z.land m 4095) (top ++ rest)
      (os_walk E (walk_body E permissions exclude_spec) top n s).
Proof.
  induction rest as [|name rest IH]; [done|].
  intros top n c s _ Hf Hc Hex.
  destruct n as [w|w es]; [done|]. simpl in Hc.
  destruct (lookup_entry name es) as [c1|] eqn:Hl; [|done].
  rewrite os_walk_Dir, (root_readdir s top w es Hf).
  destruct rest as [|name' rest'].
  - injection Hc as <-.
    apply settled_bind_l; [by eapply walk_body_settles|].
    intros _. apply keeps_for_each. intros e. apply keeps_walk_step.
  - apply settled_bind_r with (a := tt).
    { apply (walk_body_returns E permissions exclude_spec reach_fits top s es);
        [by left|by eapply root_readdir]. }
    apply settled_for_each with (x := (name, c1)).
    + by apply lookup_entry_Some.
    + intros e s'. destruct (is_dir_node (snd e)); [|done].
      apply (os_walk_returns E permissions exclude_spec reach_fits). by left.
    + intros e. apply keeps_walk_step.
    + intros s'. cbn [fst snd].
      destruct c1 as [w1|w1 es1]; [done|]. cbn [is_dir_node].
      replace (top ++ name :: name' :: rest')
        with ((top ++ [name]) ++ name' :: rest') in *
        by (by rewrite <- app_assoc).
      apply (IH (top ++ [name]) (Dir w1 es1) c); [done| |done|done].
      by rewrite find_node_snoc, Hf.
Qed.

Lemma find_node_app (n : node) (p r : path) (c : node) :
  find_node n (p ++ r) = Some c ->
  exists k, find_node n p = Some k /\ find_node k r = Some c.
Proof.
  revert n. induction p as [|x p IH]; simpl; intros n H; [by exists n|].
  destruct n as [|w es]; [done|].
  destruct (lookup_entry x es); [|done]. by apply IH.
Qed.

Lemma process_path_settles (target rest : path) (c : node) (s : store) :
  find_node (tree E) (target ++ rest) = Some c ->
  excluded exclude_spec (target ++ rest) = false ->
  settled (Z.land m 4095) (target ++ rest)
    (process_path E target permissions true exclude_spec s).
Proof.
  intros Hq Hex.
  destruct (find_node_app _ _ _ _ Hq) as (n & Hn & Hc).
  rewrite (process_path_found E target permissions true exclude_spec s n)
    by (by apply root_stat).
  apply settled_bind_l; [|intros; apply keeps_ret].
  destruct rest as [|name rest].
  - rewrite app_nil_r in *. destruct n as [w|w es].
    + by eapply apply_step_settles.
    + apply settled_bind_l; [by eapply apply_settles|].
      intros _. unfold for_os_walk. rewrite Hn. apply keeps_os_walk.
  - destruct n as [w|w es]; [done|].
    destruct (apply_returns E permissions exclude_spec reach_fits target s)
      as [r Hr].
    apply settled_bind_r with (a := r); [done|].
    unfold for_os_walk. rewrite Hn. by eapply os_walk_settles.
Qed.

End Reach.

(** X12: a privileged user's recursive run reaches every entry: every entry
    at or below the target that the pattern does not exclude is set to the
    directive's mode and chmod is called on it, also when a directory above
    it is excluded (exclusion does not prune). *)
Theorem privileged_run_reaches_every_entry (E : env) (target : path)
    (permissions : option string) (exclude_spec : option (string -> bool))
    (s : store) (m : Z) (q : path) (c : node) :
  euid_root E = true ->
  directive_mode E permissions = Some m ->
  in_c_int m = true ->
  target `prefix_of` q ->
  stat E s q = inr c ->
  excluded exclude_spec q = false ->
  let r := process_path E target permissions true exclude_spec s in
  fs_after r !! q = Some (Z.land m 4095) /\ q ∈ chmod_targets (trace r).
Proof.
  intros Hroot Hm Hint [rest ->] Hst Hex.
  apply (process_path_settles E permissions exclude_spec m Hroot Hm Hint
           target rest c s); [by eapply stat_find|done].
Qed.

Lemma privileged_run_reaches_every_entry_witness :
  let r := process_path demo_env_root ["d"] (Some "755") true
             (Some (String.eqb "/d/sub")) demo_modes in
  fs_after r !! ["d"; "sub"; "b.txt"] = Some (Z.land 493 4095) /\
  ["d"; "sub"; "b.txt"] ∈ chmod_targets (trace r).
Proof.
  apply (privileged_run_reaches_every_entry demo_env_root ["d"] (Some "755")
           (Some (String.eqb "/d/sub")) demo_modes 493 ["d"; "sub"; "b.txt"]
           (File Owner)); try reflexivity.
  by exists ["sub"; "b.txt"].
Defined.

(** ** The owner's run reaches every entry *)

Lemma for_each_inv {A : Type} (I : store -> Prop) (f : A -> M unit)
    (l : list A) :
  (forall y s, y ∈ l -> I s -> res (f y s) = Ret tt /\ I (fs_after (f y s))) ->
  forall s, I s ->
    res (for_each f l s) = Ret tt /\ I (fs_after (for_each f l s)).
Proof.
  induction l as [|y l IH]; intros Hf s Hs; [done|].
  change (for_each f (y :: l)) with (f y;; for_each f l).
  rewrite res_bind, fs_after_bind.
  destruct (Hf y s) as [Hr Hi]; [left|done|]. rewrite Hr.
  apply IH; [|done]. intros z s' Hz. apply Hf. by right.
Qed.

Lemma settled_for_each_inv {A : Type} (I : store -> Prop) (v : Z) (q : path)
    (f : A -> M unit) (l : list A) (x : A) :
  x ∈ l ->
  (forall y s, y ∈ l -> I s -> res (f y s) = Ret tt /\ I (fs_after (f y s))) ->
  (forall y, stepwise (fun s s' _ => keeps_or_sets v s s') (f y)) ->
  (forall s, I s -> settled v q (f x s)) ->
  forall s, I s -> settled v q (for_each f l s).
Proof.
  intros Hx Hstep Hkeep Hset. revert Hx Hstep.
  induction l as [|y l IH]; intros Hx Hstep s Hs;
    [by apply not_elem_of_nil in Hx|].
  change (for_each f (y :: l)) with (f y;; for_each f l).
  apply elem_of_cons in Hx as [<-|Hx].
  - apply settled_bind_l; [by apply Hset|]. intros _. by apply keeps_for_each.
  - destruct (Hstep y s) as [Hr Hi]; [left|done|].
    apply settled_bind_r with (a := tt); [done|].
    apply IH; [done| |done]. intros z s' Hz. apply Hstep. by right.
Qed.

Lemma snoc_not_prefix (top : path) (name : string) :
  ~ (top ++ [name]) `prefix_of` top.
Proof. intros H%prefix_length. rewrite length_app in H. simpl in H. lia. Qed.

Lemma below_child_not_prefix (top k : path) (name : string) :
  k `prefix_of` top -> ~ (top ++ [name]) `prefix_of` k.
Proof.
  intros Hk Hc. apply (snoc_not_prefix top name). by etrans.
Qed.

Lemma owned_Dir (w : cls) (es : list (string * node)) :
  owned (Dir w es) = true ->
  is_owner w = true /\ (forall name c, (name, c) ∈ es -> owned c = true).
Proof.
  simpl. intros [Hw Hall]%andb_true_iff. split; [done|].
  intros name c Hin. rewrite forallb_forall in Hall.
  apply (Hall (name, c)). by apply list_elem_of_In.
Qed.

Lemma owned_who (n : node) : owned n = true -> is_owner (who_of n) = true.
Proof. destruct n as [w|w es]; simpl; [done|]. by intros [? _]%andb_true_iff. Qed.

Lemma ready_agree (E : env) (s s' : store) (top : path) (n : node) :
  ready E s top n -> (forall k, k `prefix_of` top -> s' !! k = s !! k) ->
  ready E s' top n.
Proof.
  intros [Hst Hop] Hag. split.
  - rewrite <- Hst. symmetry. apply stat_agree.
    intros k [Hk _]. symmetry. by apply Hag.
  - unfold open_dir, mode_of in *. by rewrite Hag.
Qed.

Lemma ready_readdir (E : env) (s : store) (top : path) (w : cls)
    (es : list (string * node)) :
  ready E s top (Dir w es) -> is_owner w = true -> readdir E s top = inr es.
Proof.
  intros [Hst [Hr _]] Hw. unfold readdir, may. rewrite Hst.
  destruct w; try done. change (perm_bit Owner R) with 8.
  by rewrite Hr, orb_true_r.
Qed.

Lemma ready_child_stat (E : env) (s : store) (top : path) (w : cls)
    (es : list (string * node)) (name : string) :
  ready E s top (Dir w es) -> is_owner w = true ->
  stat E s (top ++ [name]) =
  match lookup_entry name es with
  | Some c => inr c
  | None => inl ENOENT
  end.
Proof.
  intros [Hst [_ Hx]] Hw. rewrite stat_snoc, Hst. unfold may.
  destruct w; try done. change (perm_bit Owner X) with 6.
  by rewrite Hx, orb_true_r.
Qed.

Lemma ready_child_is_dir (E : env) (s : store) (top : path) (w : cls)
    (es : list (string * node)) (name : string) :
  ready E s top (Dir w es) -> is_owner w = true ->
  path_is_dir E (top ++ [name]) s =
  Run (Ret (match lookup_entry name es with
            | Some (Dir _ _) => true
            | _ => false
            end)) s [].
Proof.
  intros Hrdy Hw. unfold path_is_dir. rewrite run_bind. unfold path_stat.
  rewrite (ready_child_stat E s top w es name Hrdy Hw).
  by destruct (lookup_entry name es) as [[|]|].
Qed.

Lemma apply_step_frame (E : env) (q x : path) (permissions : option string)
    (exclude_spec : option (string -> bool)) (s : store) :
  x <> q ->
  fs_after ((apply_permission_change E q permissions exclude_spec;; mret tt) s)
    !! x = s !! x.
Proof.
  intros Hx. rewrite fs_after_bind.
  destruct (res (apply_permission_change E q permissions exclude_spec s));
    by apply apply_touches_one.
Qed.

Lemma ready_apply_child (E : env) (s : store) (top : path) (n : node)
    (name : string) (permissions : option string)
    (exclude_spec : option (string -> bool)) :
  ready E s top n ->
  ready E
    (fs_after ((apply_permission_change E (top ++ [name]) permissions
                  exclude_spec;; mret tt) s)) top n.
Proof.
  intros Hrdy. eapply ready_agree; [done|]. intros k Hk.
  apply apply_step_frame. intros ->. by apply snoc_not_prefix in Hk.
Qed.

Lemma os_walk_frame (E : env) (permissions : option string)
    (exclude_spec : option (string -> bool)) (n : node) (top : path)
    (s : store) (q : path) :
  ~ top `prefix_of` q ->
  fs_after (os_walk E (walk_body E permissions exclude_spec) top n s) !! q
  = s !! q.
Proof.
  intros Hq. revert q Hq.
  apply (stepwise_os_walk E permissions exclude_spec
           (fun s s' _ => forall q, ~ top `prefix_of` q -> s' !! q = s !! q)
           (fun x => top `prefix_of` x)); [done| | | |done].
  - intros s0 s1 s2 _ _ H1 H2 q Hq. by rewrite H2, H1.
  - intros x name Hx. by apply prefix_app_r.
  - intros x Hx s0 q Hq. apply apply_touches_one. by intros ->.
Qed.

Section Owner.

Variable E : env.
Variable permissions : option string.
Variable exclude_spec : option (string -> bool).
Variable m : Z.

Hypothesis Hm : directive_mode E permissions = Some m.
Hypothesis Hint : in_c_int m = true.
Hypothesis Hread : Z.testbit m 8 = true.
Hypothesis Hsearch : Z.testbit m 6 = true.

Lemma owner_fits : directive_fits E permissions.
Proof. intros m' Hm'. congruence. Qed.

Lemma open_settled (s : store) (p : path) :
  s !! p = Some (Z.land m 4095) -> open_dir s p.
Proof.
  intros H. unfold open_dir, mode_of. rewrite H. cbn [default from_option id].
  by rewrite !Z.land_spec, Hread, Hsearch.
Qed.

Lemma owner_apply_step_settles (s : store) (q : path) (c : node) :
  stat E s q = inr c -> is_owner (who_of c) = true ->
  excluded exclude_spec q = false ->
  settled (Z.land m 4095) q
    ((apply_permission_change E q permissions exclude_spec;; mret tt) s).
Proof.
  intros Hst Hown Hex. apply settled_bind_l; [|intros; apply keeps_ret].
  rewrite apply_permission_change_outcome. unfold entry_outcome.
  rewrite Hex, Hm, Hint, Hst, Hown, orb_true_r. split; cbn.
  - by rewrite lookup_insert_eq.
  - left.
Qed.

Lemma owner_file_step (s : store) (top : path) (n : node) (name : string) :
  ready E s top n ->
  res ((apply_permission_change E (top ++ [name]) permissions exclude_spec;;
        mret tt) s) = Ret tt /\
  ready E
    (fs_after ((apply_permission_change E (top ++ [name]) permissions
                  exclude_spec;; mret tt) s)) top n.
Proof.
  intros Hrdy. split; [apply apply_step_returns, owner_fits|].
  by apply ready_apply_child.
Qed.

Lemma owner_dir_step (s : store) (top : path) (w : cls)
    (es : list (string * node)) (name : string) :
  ready E s top (Dir w es) -> is_owner w = true ->
  res ((d ← path_is_dir E (top ++ [name]);
        if d : bool
        then apply_permission_change E (top ++ [name]) permissions exclude_spec;;
             mret tt
        else mret tt) s) = Ret tt /\
  ready E
    (fs_after ((d ← path_is_dir E (top ++ [name]);
                if d : bool
                then apply_permission_change E (top ++ [name]) permissions
                       exclude_spec;; mret tt
                else mret tt) s)) top (Dir w es).
Proof.
  intros Hrdy Hw.
  rewrite (run_bind_pure (path_is_dir E (top ++ [name])) _ s _
             (ready_child_is_dir E s top w es name Hrdy Hw)).
  destruct (lookup_entry name es) as [[|]|]; [done| |done].
  by apply owner_file_step.
Qed.

(** The body of the walk for an open directory returns, leaves the directory
    open and settles every entry of it that is not excluded. *)
Lemma owner_walk_body (s : store) (top : path) (w : cls)
    (es : list (string * node)) :
  ready E s top (Dir w es) -> is_owner w = true ->
  (forall name c, lookup_entry name es = Some c -> is_owner (who_of c) = true) ->
  res (walk_body E permissions exclude_spec top (dir_names es) (file_names es) s)
  = Ret tt /\
  ready E
    (fs_after (walk_body E permissions exclude_spec top (dir_names es)
                 (file_names es) s)) top (Dir w es) /\
  (forall name c,
     lookup_entry name es = Some c ->
     excluded exclude_spec (top ++ [name]) = false ->
     settled (Z.land m 4095) (top ++ [name])
       (walk_body E permissions exclude_spec top (dir_names es)
          (file_names es) s)).
Proof.
  intros Hrdy Hw Hown. unfold walk_body.
  set (F := for_each _ (file_names es)).
  assert (HF : forall s', ready E s' top (Dir w es) ->
            res (F s') = Ret tt /\ ready E (fs_after (F s')) top (Dir w es)).
  { intros s' Hs'. apply (for_each_inv (fun s => ready E s top (Dir w es)));
      [|done]. intros y s0 _ Hs0. by apply owner_file_step. }
  assert (HL : forall s', ready E s' top (Dir w es) ->
            os_listdir E top s' = Run (Ret (fst <$> es)) s' []).
  { intros s' Hs'. unfold os_listdir.
    by rewrite (ready_readdir E s' top w es Hs' Hw). }
  destruct (HF s Hrdy) as [HFr HFrdy].
  split_and!.
  - rewrite res_bind, HFr, (run_bind_pure _ _ _ _ (HL _ HFrdy)).
    apply (for_each_inv (fun s => ready E s top (Dir w es))); [|done].
    intros y s0 _ Hs0. by apply owner_dir_step.
  - rewrite fs_after_bind, HFr, (run_bind_pure _ _ _ _ (HL _ HFrdy)).
    apply (for_each_inv (fun s => ready E s top (Dir w es))); [|done].
    intros y s0 _ Hs0. by apply owner_dir_step.
  - intros name c Hl Hex.
    pose proof (lookup_entry_Some _ _ _ Hl) as Hin.
    assert (Hc : forall s', ready E s' top (Dir w es) ->
              stat E s' (top ++ [name]) = inr c).
    { intros s' Hs'. by rewrite (ready_child_stat E s' top w es name Hs' Hw), Hl. }
    destruct (is_dir_node c) eqn:Hd.
    + apply settled_bind_r with (a := tt); [done|].
      rewrite (run_bind_pure _ _ _ _ (HL _ HFrdy)).
      apply (settled_for_each_inv (fun s => ready E s top (Dir w es)))
        with (x := name); [| | | |done].
      * apply list_elem_of_fmap. by exists (name, c).
      * intros y s0 _ Hs0. by apply owner_dir_step.
      * intros y. by apply keeps_dir_step.
      * intros s' Hs'.
        rewrite (run_bind_pure (path_is_dir E (top ++ [name])) _ s' _
                   (ready_child_is_dir E s' top w es name Hs' Hw)), Hl.
        destruct c as [|w1 es1]; [done|].
        apply (owner_apply_step_settles s' _ (Dir w1 es1));
          [by apply Hc|by eapply Hown|done].
    + apply settled_bind_l.
      * apply (settled_for_each_inv (fun s => ready E s top (Dir w es)))
          with (x := name); [| | | |done].
        -- unfold file_names. apply list_elem_of_fmap. exists (name, c).
           split; [done|]. by apply list_elem_of_filter.
        -- intros y s0 _ Hs0. by apply owner_file_step.
        -- intros y. by apply keeps_apply_step.
        -- intros s' Hs'.
           apply (owner_apply_step_settles s' _ c);
             [by apply Hc|by eapply Hown|done].
      * intros _. apply keeps_bind.
        -- apply (stepwise_listdir E
                    (fun s s' _ => keeps_or_sets (Z.land m 4095) s s')).
           intros. apply keeps_or_sets_refl.
        -- intros names. apply keeps_for_each. intros y.
           by apply keeps_dir_step.
Qed.

(** The walk from an open directory returns and settles every entry below
    it that is not excluded, when no directory below it is excluded. *)
Lemma owner_os_walk (n : node) :
  forall (top : path) (s : store),
    wf_node n = true -> owned n = true ->
    (forall rest d, find_node n rest = Some d -> is_dir_node d = true ->
                    excluded exclude_spec (top ++ rest) = false) ->
    ready E s top n ->
    res (os_walk E (walk_body E permissions exclude_spec) top n s) = Ret tt /\
    (forall rest c,
       rest <> [] -> find_node n rest = Some c ->
       excluded exclude_spec (top ++ rest) = false ->
       settled (Z.land m 4095) (top ++ rest)
         (os_walk E (walk_body E permissions exclude_spec) top n s)).
Proof.
  induction n as [w|w es IH] using node_induction;
    intros top s Hwf Hown Hdirs Hrdy.
  { split; [done|]. by intros [|x rest] c. }
  destruct (wf_node_Dir _ _ Hwf) as [Hnd Hwfs].
  destruct (owned_Dir _ _ Hown) as [Hw Howns].
  assert (Hchild_own : forall name c,
            lookup_entry name es = Some c -> is_owner (who_of c) = true).
  { intros name c Hl. apply owned_who, (Howns name). by apply lookup_entry_Some. }
  assert (Hchild_dir : forall name c,
            lookup_entry name es = Some c -> is_dir_node c = true ->
            excluded exclude_spec (top ++ [name]) = false).
  { intros name c Hl Hd. apply (Hdirs [name] c); [|done]. simpl. by rewrite Hl. }
  destruct (owner_walk_body s top w es Hrdy Hw Hchild_own)
    as (HBr & HBrdy & HBset).
  rewrite os_walk_Dir, (ready_readdir E s top w es Hrdy Hw).
  set (B := walk_body E permissions exclude_spec top (dir_names es)
              (file_names es)) in *.
  set (J := fun s' : store =>
              ready E s' top (Dir w es) /\
              forall name c, lookup_entry name es = Some c ->
                             is_dir_node c = true ->
                             s' !! (top ++ [name]) = Some (Z.land m 4095)).
  assert (HJ : J (fs_after (B s))).
  { split; [done|]. intros name c Hl Hd.
    apply (HBset name c Hl). by eapply Hchild_dir. }
  assert (Hsub : forall name c s',
            (name, c) ∈ es -> is_dir_node c = true -> J s' ->
            res (os_walk E (walk_body E permissions exclude_spec)
                   (top ++ [name]) c s') = Ret tt /\
            (forall rest c2,
               rest <> [] -> find_node c rest = Some c2 ->
               excluded exclude_spec ((top ++ [name]) ++ rest) = false ->
               settled (Z.land m 4095) ((top ++ [name]) ++ rest)
                 (os_walk E (walk_body E permissions exclude_spec)
                    (top ++ [name]) c s'))).
  { intros name c s' Hin Hd [Hrdy' Hmodes].
    pose proof (lookup_entry_elem es name c Hnd Hin) as Hl.
    apply (IH name c Hin); [by eapply Hwfs|by eapply Howns| |].
    - intros rest d Hf Hdd. rewrite <- app_assoc. apply (Hdirs (name :: rest) d);
        [|done]. simpl. by rewrite Hl.
    - split.
      + by rewrite (ready_child_stat E s' top w es name Hrdy' Hw), Hl.
      + apply open_settled. by eapply Hmodes. }
  assert (Hstep : forall e s', e ∈ es -> J s' ->
            res ((if is_dir_node (snd e)
                  then os_walk E (walk_body E permissions exclude_spec)
                         (top ++ [fst e]) (snd e)
                  else mret tt) s') = Ret tt /\
            J (fs_after ((if is_dir_node (snd e)
                          then os_walk E (walk_body E permissions exclude_spec)
                                 (top ++ [fst e]) (snd e)
                          else mret tt) s'))).
  { intros [name c] s' Hin HJ'. cbn [fst snd].
    destruct (is_dir_node c) eqn:Hd; [|done].
    destruct (Hsub name c s' Hin Hd HJ') as [Hr _]. split; [done|].
    destruct HJ' as [Hrdy' Hmodes]. split.
    - eapply ready_agree; [done|]. intros k Hk.
      apply os_walk_frame. by apply below_child_not_prefix.
    - intros name' c' Hl' Hd'.
      destruct (keeps_os_walk E permissions exclude_spec m Hm c (top ++ [name])
                  s' (top ++ [name'])) as [->|Heq]; [|done].
      by eapply Hmodes. }
  split.
  - rewrite res_bind, HBr. by apply (for_each_inv J).
  - intros rest c Hne Hc Hex. destruct rest as [|name rest]; [done|].
    simpl in Hc. destruct (lookup_entry name es) as [c1|] eqn:Hl; [|done].
    pose proof (lookup_entry_Some _ _ _ Hl) as Hin.
    destruct rest as [|name' rest'].
    + injection Hc as <-.
      apply settled_bind_l; [by apply (HBset name c1)|].
      intros _. apply keeps_for_each. intros e. by apply keeps_walk_step.
    + assert (Hd : is_dir_node c1 = true) by (by destruct c1).
      apply settled_bind_r with (a := tt); [done|].
      apply (settled_for_each_inv J) with (x := (name, c1)); [done|done| | |done].
      * intros e. by apply keeps_walk_step.
      * intros s' HJ'. cbn [fst snd]. rewrite Hd.
        destruct (Hsub name c1 s' Hin Hd HJ') as [_ Hset].
        replace (top ++ name :: name' :: rest')
          with ((top ++ [name]) ++ name' :: rest') in *
          by (by rewrite <- app_assoc).
        by apply (Hset (name' :: rest') c).
Qed.

Lemma owner_process_path (target : path) (n : node) (s : store) :
  wf_node n = true -> owned n = true ->
  (forall rest d, find_node n rest = Some d -> is_dir_node d = true ->
                  excluded exclude_spec (target ++ rest) = false) ->
  stat E s target = inr n ->
  res (process_path E target permissions true exclude_spec s) = Ret 0 /\
  (forall rest c,
     find_node n rest = Some c ->
     excluded exclude_spec (target ++ rest) = false ->
     settled (Z.land m 4095) (target ++ rest)
       (process_path E target permissions true exclude_spec s)).
Proof.
  intros Hwf Hown Hdirs Hst.
  rewrite (process_path_found E target permissions true exclude_spec s n Hst).
  destruct n as [w|w es].
  - split.
    + by rewrite res_bind, apply_step_returns by apply owner_fits.
    + intros [|x rest] c Hc Hex; [|done]. rewrite app_nil_r in *.
      apply settled_bind_l; [|intros; apply keeps_ret].
      by apply (owner_apply_step_settles s target (File w)).
  - assert (Htx : excluded exclude_spec target = false).
    { rewrite <- (app_nil_r target). by apply (Hdirs [] (Dir w es)). }
    assert (Hap : apply_permission_change E target permissions exclude_spec s
                  = Run (Ret None) (<[target := Z.land m 4095]> s)
                        [SysChmod target m; applied_record target permissions]).
    { rewrite apply_permission_change_outcome. unfold entry_outcome.
      rewrite Htx, Hm, Hint, Hst. cbn [who_of].
      destruct (owned_Dir _ _ Hown) as [-> _]. by rewrite orb_true_r. }
    set (s1 := <[target := Z.land m 4095]> s).
    assert (Hrdy : ready E s1 target (Dir w es)).
    { split.
      - rewrite <- Hst. symmetry. apply stat_agree. intros k [_ Hk].
        unfold s1. by rewrite lookup_insert_ne.
      - apply open_settled. unfold s1. by rewrite lookup_insert_eq. }
    destruct (owner_os_walk (Dir w es) target s1 Hwf Hown Hdirs Hrdy)
      as [Hr Hset].
    unfold for_os_walk. rewrite (stat_find _ _ _ _ Hst).
    split.
    + rewrite !res_bind, Hap. cbn [res fs_after]. fold s1. by rewrite Hr.
    + intros rest c Hc Hex.
      apply settled_bind_l; [|intros; apply keeps_ret].
      destruct rest as [|x rest].
      * rewrite app_nil_r in *. apply settled_bind_l.
        -- rewrite Hap. split; cbn; [by rewrite lookup_insert_eq|left].
        -- intros _. by apply keeps_os_walk.
      * apply settled_bind_r with (a := None); [by rewrite Hap|].
        rewrite Hap. cbn [fs_after]. by apply (Hset (x :: rest) c).
Qed.

End Owner.

(** X13: the owner's recursive run reaches every entry: when the target and
    everything below it belong to the user, the directive's mode lets the
    owner read and search directories, and the pattern excludes no
    directory at or below the target, the run returns 0 and every entry at
    or below the target that is not excluded holds the directive's mode
    afterwards, with chmod called on it. *)
Theorem owner_run_reaches_every_entry (E : env) (target : path)
    (permissions : option string) (exclude_spec : option (string -> bool))
    (s : store) (m : Z) (n : node) :
  wf_node (tree E) = true ->
  directive_mode E permissions = Some m ->
  in_c_int m = true ->
  Z.testbit m 8 = true -> Z.testbit m 6 = true ->
  stat E s target = inr n ->
  owned n = true ->
  (forall rest d, find_node n rest = Some d -> is_dir_node d = true ->
                  excluded exclude_spec (target ++ rest) = false) ->
  let r := process_path E target permissions true exclude_spec s in
  res r = Ret 0 /\
  (forall rest c,
     find_node n rest = Some c ->
     excluded exclude_spec (target ++ rest) = false ->
     fs_after r !! (target ++ rest) = Some (Z.land m 4095) /\
     (target ++ rest) ∈ chmod_targets (trace r)).
Proof.
  intros Hwf Hm Hint Hr Hx Hst Hown Hdirs.
  apply (owner_process_path E permissions exclude_spec m Hm Hint Hr Hx
           target n s); [|done..].
  eapply wf_find_node; [done|]. by eapply stat_find.
Qed.

Lemma owner_run_reaches_every_entry_witness :
  let r := process_path demo_env ["d"] (Some "755") true None demo_modes in
  res r = Ret 0 /\
  (forall rest c,
     find_node (Dir Owner [("a.txt", File Owner);
                           ("sub", Dir Owner [("b.txt", File Owner)])]) rest
     = Some c ->
     excluded None (["d"] ++ rest) = false ->
     fs_after r !! (["d"] ++ rest) = Some (Z.land 493 4095) /\
     (["d"] ++ rest) ∈ chmod_targets (trace r)).
Proof.
  apply (owner_run_reaches_every_entry demo_env ["d"] (Some "755") None
           demo_modes 493
           (Dir Owner [("a.txt", File Owner);
                       ("sub", Dir Owner [("b.txt", File Owner)])]));
    reflexivity.
Defined.

(** ** The order of the calls *)

Lemma top_down_level (l : list path) :
  (forall p q, p ∈ l -> q ∈ l -> length p = length q) -> top_down l.
Proof.
  intros Hl i j p q Hi Hj Hb%strictly_below_length.
  rewrite (Hl p q) in Hb; [lia|by eapply list_elem_of_lookup_2..].
Qed.

Lemma top_down_nil : top_down [].
Proof. intros i j p q Hi. by rewrite lookup_nil in Hi. Qed.

Lemma top_down_app (l1 l2 : list path) :
  top_down l1 -> top_down l2 ->
  (forall p q, q ∈ l1 -> p ∈ l2 -> ~ strictly_below p q) ->
  top_down (l1 ++ l2).
Proof.
  intros H1 H2 Hx i j p q Hi Hj Hb.
  apply lookup_app_Some in Hi as [Hi|[Hli Hi]];
    apply lookup_app_Some in Hj as [Hj|[Hlj Hj]].
  - by eapply H1.
  - apply lookup_lt_Some in Hi. lia.
  - exfalso. apply (Hx p q); [by eapply list_elem_of_lookup_2..|done].
  - pose proof (H2 _ _ _ _ Hi Hj Hb). lia.
Qed.

Lemma strictly_below_trans (p q r : path) :
  strictly_below p q -> strictly_below q r -> strictly_below p r.
Proof.
  intros H1 H2. pose proof (strictly_below_length _ _ H1).
  pose proof (strictly_below_length _ _ H2).
  destruct H1 as [H1 _], H2 as [H2 _]. split; [by etrans|].
  intros ->. lia.
Qed.

Lemma top_down_for_each {A : Type} (Wf : A -> path -> Prop) (f : A -> M unit)
    (l : list A) :
  (forall x s, x ∈ l ->
     top_down (chmod_targets (trace (f x s))) /\
     (forall q, q ∈ chmod_targets (trace (f x s)) -> Wf x q)) ->
  (forall x p q, Wf x p -> strictly_below p q -> Wf x q) ->
  pairwise_apart Wf l ->
  forall s,
    top_down (chmod_targets (trace (for_each f l s))) /\
    (forall q, q ∈ chmod_targets (trace (for_each f l s)) ->
               exists x, x ∈ l /\ Wf x q).
Proof.
  intros Hf Hdown. induction l as [|x l IH]; intros Hpw s.
  { split; [apply top_down_nil|]. by intros q Hq%not_elem_of_nil. }
  destruct Hpw as [Hx Hpw].
  change (for_each f (x :: l)) with (f x;; for_each f l). rewrite run_bind.
  destruct (Hf x s) as [Htd Hfoot]; [left|].
  destruct (res (f x s)) as [[]|e]; cbn [trace].
  - destruct (IH (fun y s' Hy => Hf y s' (list_elem_of_further _ _ _ Hy)) Hpw
                (fs_after (f x s))) as [Htd' Hfoot'].
    rewrite chmod_targets_app. split.
    + apply top_down_app; [done..|].
      intros p q Hq Hp Hb. destruct (Hfoot' p Hp) as (y & Hy & Hyp).
      apply (Hx y q Hy); [by apply Hfoot|]. by eapply Hdown.
    + intros q [Hq|Hq]%elem_of_app.
      * exists x. split; [left|by apply Hfoot].
      * destruct (Hfoot' q Hq) as (y & Hy & Hyq). exists y.
        split; [by right|done].
  - split; [done|]. intros q Hq. exists x. split; [left|by apply Hfoot].
Qed.

Section Order.

Variable E : env.
Variable permissions : option string.
Variable exclude_spec : option (string -> bool).

Lemma top_down_os_walk (n : node) :
  forall (top : path) (s : store),
    wf_node n = true -> find_node (tree E) top = Some n ->
    top_down (chmod_targets
                (trace (os_walk E (walk_body E permissions exclude_spec)
                          top n s))).
Proof.
  induction n as [w|w es IH] using node_induction; intros top s Hwf Hfind.
  { apply top_down_nil. }
  destruct (wf_node_Dir _ _ Hwf) as [Hnd Hwfs].
  rewrite os_walk_Dir.
  destruct (readdir E s top); [apply top_down_nil|].
  destruct (local_targets _ _ _
              (local_walk_body E permissions exclude_spec top w es Hfind Hnd) s)
    as [Hbody _].
  assert (Hlevel : top_down
            (chmod_targets
               (trace (walk_body E permissions exclude_spec top (dir_names es)
                         (file_names es) s)))).
  { apply top_down_level. intros p q [x ->]%Hbody [y ->]%Hbody.
    by rewrite !length_app. }
  rewrite run_bind.
  destruct (res (walk_body E permissions exclude_spec top (dir_names es)
                   (file_names es) s)) as [[]|e]; cbn [trace]; [|done].
  rewrite chmod_targets_app.
  destruct (top_down_for_each
              (fun (e : string * node) q =>
                 is_dir_node (snd e) = true /\
                 strictly_below (top ++ [fst e]) q)
              (fun e => if is_dir_node (snd e)
                        then os_walk E (walk_body E permissions exclude_spec)
                               (top ++ [fst e]) (snd e)
                        else mret tt) es) with
    (s := fs_after (walk_body E permissions exclude_spec top (dir_names es)
                      (file_names es) s)) as [Htd Hfoot].
  - intros [name c] s' Hin. cbn [fst snd].
    destruct (is_dir_node c) eqn:Hd.
    + assert (Hc : find_node (tree E) (top ++ [name]) = Some c).
      { rewrite find_node_snoc, Hfind. by apply lookup_entry_elem. }
      split; [apply (IH name c Hin); [by eapply Hwfs|done]|].
      intros q Hq. split; [done|].
      by apply (local_targets _ _ _
                  (local_os_walk E permissions exclude_spec c (top ++ [name])
                     (Hwfs name c Hin) Hc) s').
    + split; [apply top_down_nil|]. by intros q Hq%not_elem_of_nil.
  - intros e p q [Hd Hp] Hq. split; [done|]. by eapply strictly_below_trans.
  - by apply pairwise_apart_below.
  - apply top_down_app; [done..|].
    intros p q [x ->]%Hbody Hp Hb%strictly_below_length.
    destruct (Hfoot p Hp) as (e & _ & _ & Hbe%strictly_below_length).
    rewrite !length_app in *. simpl in *. lia.
Qed.

Lemma top_down_process_path (target : path) (recursive : bool) (s : store) :
  wf_node (tree E) = true ->
  top_down (chmod_targets
              (trace (process_path E target permissions recursive
                        exclude_spec s))).
Proof.
  intros Hwf. destruct (stat E s target) as [e|n] eqn:Hst.
  { destruct (process_path_absent E target permissions recursive exclude_spec
                s e Hst) as [_ ->]. apply top_down_nil. }
  rewrite (process_path_found _ _ _ _ _ _ _ Hst).
  destruct (apply_touches_one E target permissions exclude_spec s) as [_ Hap].
  assert (Hone : top_down
            (chmod_targets
               (trace (apply_permission_change E target permissions
                         exclude_spec s)))).
  { apply top_down_level. intros p q Hp Hq.
    destruct Hap as [Hap|Hap]; rewrite Hap in Hp, Hq;
      [by apply not_elem_of_nil in Hp|].
    apply list_elem_of_singleton in Hp, Hq. by subst. }
  set (body := match n with
               | File _ => _
               | Dir _ _ => _
               end).
  assert (Hbody : top_down (chmod_targets (trace (body s)))).
  { unfold body. destruct n as [w|w es].
    - rewrite run_bind.
      destruct (res (apply_permission_change E target permissions
                       exclude_spec s)); cbn [trace]; [|done].
      by rewrite app_nil_r.
    - rewrite run_bind.
      destruct (res (apply_permission_change E target permissions
                       exclude_spec s)); cbn [trace]; [|done].
      destruct recursive; [|by rewrite app_nil_r].
      rewrite chmod_targets_app. apply top_down_app; [done| |].
      + unfold for_os_walk. rewrite (stat_find _ _ _ _ Hst).
        apply top_down_os_walk; [|by eapply stat_find].
        eapply wf_find_node; [done|]. by eapply stat_find.
      + intros p q Hq Hp Hb%strictly_below_length.
        destruct Hap as [Hap|Hap]; rewrite Hap in Hq;
          [by apply not_elem_of_nil in Hq|].
        apply list_elem_of_singleton in Hq. subst q.
        apply (local_targets _ _ _
                 (local_for_os_walk E permissions exclude_spec target Hwf))
          in Hp.
        apply strictly_below_length in Hp. lia. }
  rewrite run_bind. destruct (res (body s)); cbn [trace]; [|done].
  by rewrite app_nil_r.
Qed.

End Order.

(** X15: the calls go top down: in the sequence of chmod calls of a run every
    path is called before any path that lies properly below it (names being
    unique inside a directory), so a directory's own mode is always changed
    before the walk looks into it. *)
Theorem calls_go_top_down (E : env) (a : args) (s : store) :
  wf_node (tree E) = true ->
  top_down (chmod_targets (trace (main E a s))).
Proof.
  intros Hwf.
  destruct (main_cases E a s) as [(_ & -> & _)|(spec & n & _ & ->)].
  - apply top_down_nil.
  - by apply top_down_process_path.
Qed.

Lemma calls_go_top_down_witness :
  top_down
    (chmod_targets
       (trace (main demo_env (Args ["d"] (Some "755") None true) demo_modes))).
Proof.
  apply (calls_go_top_down demo_env (Args ["d"] (Some "755") None true)
           demo_modes).
  reflexivity.
Defined.
